(** * Receipt field extraction ([parseReceipt] of [server.js])

    A shallow embedding of the receipt parser: the transcription text is a
    sequence of UTF-16 code units, the regular expressions of the source are
    values of a small syntax run by a backtracking matcher that follows the
    ECMAScript matching order (leftmost start, alternatives left to right,
    greedy quantifiers), and the parser threads its loop state explicitly. *)

From Stdlib Require Import List Bool Arith NArith ZArith QArith Lia.
From Stdlib Require Import Ascii.
From Stdlib Require String.
Import ListNotations String.StringSyntax.
Close Scope Q_scope.
Delimit Scope string_scope with string.

Set Implicit Arguments.

(** ** Strings *)

(** A JavaScript string: its UTF-16 code units, in order. *)
Definition str := list N.

(** A literal of the source, written as a Rocq string (one code unit per
    character; the literals of the source are all ASCII). *)
Definition js (s : String.string) : str :=
  List.map N_of_ascii (String.list_ascii_of_string s).
Arguments js s%_string.

Definition LF : N := 10%N.
Definition CR : N := 13%N.

(** ** Character predicates of ECMAScript *)

Definition between (lo hi c : N) : bool := (N.leb lo c && N.leb c hi)%bool.

(** [\w] without the [u] flag: [A-Za-z0-9_]. *)
Definition isWord (c : N) : bool :=
  between 65 90 c || between 97 122 c || between 48 57 c || N.eqb c 95.

(** [\s], which is also what [trim] strips: WhiteSpace and LineTerminator. *)
Definition isSpace (c : N) : bool :=
  between 9 13 c || N.eqb c 32 || N.eqb c 160 || N.eqb c 5760
  || between 8192 8202 c || N.eqb c 8232 || N.eqb c 8233 || N.eqb c 8239
  || N.eqb c 8287 || N.eqb c 12288 || N.eqb c 65279.

Definition isDigit (c : N) : bool := between 48 57 c.

Definition upper (c : N) : N := if between 97 122 c then (c - 32)%N else c.
Definition lower (c : N) : N := if between 65 90 c then (c + 32)%N else c.

(** Canonicalize of the [i] flag (no [u] flag).  The patterns of the source
    hold ASCII characters and [\s] only, and ECMAScript never folds a code
    unit above 127 to one below 128, so folding the ASCII letters decides
    every comparison the patterns make. *)
Definition canon (ic : bool) (c : N) : N := if ic then upper c else c.

Definition char_eq (ic : bool) (a c : N) : bool := N.eqb (canon ic a) (canon ic c).

(** ** Regular expressions *)

Inductive citem : Type :=
| CChar (c : N)
| CRange (lo hi : N)
| CSpace
| CWord.

(** A character class [[...]] or [[^...]]. *)
Record cclass : Type := CClass { negated : bool; items : list citem }.

Definition item_mem (ic : bool) (c : N) (it : citem) : bool :=
  match it with
  | CChar a => char_eq ic a c
  | CRange lo hi =>
      between lo hi c || (ic && (between lo hi (upper c) || between lo hi (lower c)))
  | CSpace => isSpace c
  | CWord => isWord c
  end.

Definition class_mem (ic : bool) (cs : cclass) (c : N) : bool :=
  xorb (negated cs) (existsb (item_mem ic c) (items cs)).

Inductive regex : Type :=
| Chars (l : str)                               (* literal characters *)
| Class (cs : cclass)                           (* one character of a class *)
| Many (lo : nat) (hi : option nat) (cs : cclass) (* greedy  cs{lo,hi} *)
| Seq (a b : regex)
| Alt (a b : regex)
| Opt (a : regex)                               (* greedy  (?:a)? *)
| Group (i : nat) (a : regex)                   (* capture group number i *)
| WordB.                                        (* \b *)

Definition Star := Many 0 None.
Definition Plus := Many 1 None.
Definition Rep (n : nat) := Many n (Some n).

Fixpoint ngroups (r : regex) : nat :=
  match r with
  | Seq a b | Alt a b => ngroups a + ngroups b
  | Opt a => ngroups a
  | Group _ a => S (ngroups a)
  | _ => 0
  end.

(** A RegExp object: pattern and [i] flag. *)
Record regexp : Type := RegExp { pattern : regex; ignoreCase : bool }.

(** ** The backtracking matcher *)

(** [before] is the input already consumed, latest character first; [after]
    is the input still to read; [caps] is the capture array (index 0 is the
    whole match). *)
Record mstate : Type := MState { before : str; after : str; caps : list (option str) }.

Fixpoint set_nth (A : Type) (i : nat) (x : A) (l : list A) : list A :=
  match l, i with
  | [], _ => []
  | _ :: t, O => x :: t
  | y :: t, S j => y :: set_nth j x t
  end.

(** The characters read between two states of one run. *)
Definition consumed (s s' : mstate) : str :=
  rev (firstn (length (before s') - length (before s)) (before s')).

Definition capture (i : nat) (s s' : mstate) : mstate :=
  MState (before s') (after s') (set_nth i (Some (consumed s s')) (caps s')).

Fixpoint eat (ic : bool) (l : str) (s : mstate) : option mstate :=
  match l with
  | [] => Some s
  | a :: l' =>
      match after s with
      | c :: t =>
          if char_eq ic a c then eat ic l' (MState (c :: before s) t (caps s))
          else None
      | [] => None
      end
  end.

Definition orelse (A : Type) (x y : option A) : option A :=
  match x with Some _ => x | None => y end.

Section Matcher.
Variable ic : bool.

Fixpoint many (cs : cclass) (lo : nat) (hi : option nat)
    (k : mstate -> option mstate) (cp : list (option str))
    (prev rest : str) {struct rest} : option mstate :=
  let stop := match lo with O => k (MState prev rest cp) | S _ => None end in
  match hi with
  | Some O => stop
  | _ =>
      match rest with
      | c :: t =>
          if class_mem ic cs c
          then orelse (many cs (pred lo) (option_map pred hi) k cp (c :: prev) t) stop
          else stop
      | [] => stop
      end
  end.

Definition word_at (o : option N) : bool :=
  match o with Some c => isWord c | None => false end.

Fixpoint run (r : regex) (k : mstate -> option mstate) (s : mstate) : option mstate :=
  match r with
  | Chars l => match eat ic l s with Some s' => k s' | None => None end
  | Class cs =>
      match after s with
      | c :: t => if class_mem ic cs c then k (MState (c :: before s) t (caps s)) else None
      | [] => None
      end
  | Many lo hi cs => many cs lo hi k (caps s) (before s) (after s)
  | Seq a b => run a (run b k) s
  | Alt a b => orelse (run a k s) (run b k s)
  | Opt a => orelse (run a k s) (k s)
  | Group i a => run a (fun s' => k (capture i s s')) s
  | WordB =>
      if xorb (word_at (hd_error (before s))) (word_at (hd_error (after s)))
      then k s else None
  end.

(** Try every start position from the left. *)
Fixpoint search (r : regex) (n : nat) (prev rest : str) : option mstate :=
  let s := MState prev rest (repeat None n) in
  match run r (fun s' => Some (capture 0 s s')) s with
  | Some s' => Some s'
  | None =>
      match rest with
      | [] => None
      | c :: t => search r n (c :: prev) t
      end
  end.
End Matcher.

(** [re.exec(s)] for a pattern without [g] or [y]: the match array. *)
Definition exec (re : regexp) (s : str) : option (list (option str)) :=
  option_map caps (search (ignoreCase re) (pattern re) (S (ngroups (pattern re))) [] s).

(** [s.match(re)] and [re.test(s)]. *)
Definition str_match (s : str) (re : regexp) : option (list (option str)) := exec re s.
Definition test (re : regexp) (s : str) : bool :=
  match exec re s with Some _ => true | None => false end.

(** ** String methods used by the parser *)

Fixpoint dropwhile (p : N -> bool) (s : str) : str :=
  match s with
  | c :: t => if p c then dropwhile p t else s
  | [] => []
  end.

(** [s.trim()] *)
Definition trim (s : str) : str :=
  rev (dropwhile isSpace (rev (dropwhile isSpace s))).

(** Length of the match of [re] that starts exactly at the current position. *)
Definition match_here (re : regexp) (prev rest : str) : option nat :=
  match run (ignoreCase re) (pattern re) (fun s' => Some s')
          (MState prev rest (repeat None (S (ngroups (pattern re))))) with
  | Some s' => Some (length (before s') - length prev)
  | None => None
  end.

(** The loop of [s.split(re)]: [cur] is the piece being read (latest
    character first) and [skip] counts the characters of a separator still to
    pass.  A separator that matches the empty string splits only when the
    piece read so far is not empty. *)
Fixpoint split_at (re : regexp) (prev cur : str) (skip : nat) (rest : str) : list str :=
  match rest with
  | [] => [rev cur]
  | c :: t =>
      match skip with
      | S n => split_at re (c :: prev) cur n t
      | O =>
          match match_here re prev rest with
          | Some (S n) => rev cur :: split_at re (c :: prev) [] n t
          | Some O =>
              match cur with
              | [] => split_at re (c :: prev) [c] 0 t
              | _ => rev cur :: split_at re (c :: prev) [c] 0 t
              end
          | None => split_at re (c :: prev) (c :: cur) 0 t
          end
      end
  end.

(** [s.split(re)] *)
Definition split (re : regexp) (s : str) : list str :=
  match s with
  | [] => match match_here re [] [] with Some _ => [] | None => [[]] end
  | _ => split_at re [] [] 0 s
  end.

Fixpoint strip_prefix (p s : str) : option str :=
  match p, s with
  | [], _ => Some s
  | a :: p', c :: s' => if N.eqb a c then strip_prefix p' s' else None
  | _ :: _, [] => None
  end.

(** [s.replace(pat, rep)] with a string pattern: the first occurrence only. *)
Fixpoint replace_str (pat rep s : str) : str :=
  match strip_prefix pat s with
  | Some r => rep ++ r
  | None =>
      match s with
      | [] => []
      | c :: t => c :: replace_str pat rep t
      end
  end.

(** [s.replace(/[...]/g, "")] for a pattern that is one character class:
    every code unit of the class is deleted. *)
Definition delete_all (cs : cclass) (s : str) : str :=
  filter (fun c => negb (class_mem false cs c)) s.

(** [s.slice(0, n)] *)
Definition slice0 (n : nat) (s : str) : str := firstn n s.

(** ** Numbers *)

(** A JavaScript number, as the decimal it was read from: [parseFloat] rounds
    that decimal to the nearest double (to [Infinity] beyond the range of the
    doubles), which keeps its sign and maps equal decimals to equal numbers. *)
Inductive number : Type :=
| NaN
| Num (q : Q).

Fixpoint span_digits (s : str) : str * str :=
  match s with
  | c :: t =>
      if isDigit c then let (d, r) := span_digits t in (c :: d, r) else ([], s)
  | [] => ([], [])
  end.

Definition digits_val (ds : str) : Z :=
  fold_left (fun a c => (10 * a + Z.of_N (c - 48))%Z) ds 0%Z.

Fixpoint pow10 (n : nat) : positive :=
  match n with O => 1%positive | S n' => (10 * pow10 n')%positive end.

Definition decimal (ip fp : str) : Q :=
  Qred (digits_val (ip ++ fp) # pow10 (length fp)).

(** [parseFloat(s)] for [s] made of digits and periods, which is all that
    reaches it here (see [token_shape]): the longest prefix [digits],
    [digits.digits], [digits.] or [.digits] is read; [NaN] when there is
    none. *)
Definition parseFloat (s : str) : number :=
  let (ip, r) := span_digits s in
  let fp := match r with
            | c :: r' => if N.eqb c 46 then fst (span_digits r') else []
            | [] => []
            end in
  match ip, fp with
  | [], [] => NaN
  | _, _ => Num (decimal ip fp)
  end.

(** ** The parser *)

Definition ch (a : ascii) : N := N_of_ascii a.
Arguments ch a%_char.

Definition nothing : regex := Class (CClass false []).

Fixpoint alts (l : list regex) : regex :=
  match l with
  | [] => nothing
  | [a] => a
  | a :: t => Alt a (alts t)
  end.

Fixpoint seqs (l : list regex) : regex :=
  match l with
  | [] => Chars []
  | [a] => a
  | a :: t => Seq a (seqs t)
  end.

Definition words (l : list String.string) : regex :=
  alts (List.map (fun w => Chars (js w)) l).

(** [/\r?\n/] *)
Definition re_newline : regexp :=
  RegExp (Seq (Opt (Chars [CR])) (Chars [LF])) false.

(** [/total|date|time|invoice|batch|approval|trans id|customer|wechat|visa|master|sale|receipt|store|cashier|host|mid|tid|batch/i] *)
Definition ban_terms : list String.string :=
  ["total"; "date"; "time"; "invoice"; "batch"; "approval"; "trans id";
   "customer"; "wechat"; "visa"; "master"; "sale"; "receipt"; "store";
   "cashier"; "host"; "mid"; "tid"; "batch"]%string.

Definition ban : regexp := RegExp (words ban_terms) true.

(** [/[A-Za-z]/] *)
Definition re_alpha : regexp :=
  RegExp (Class (CClass false [CRange (ch "A") (ch "Z"); CRange (ch "a") (ch "z")])) false.

(** [[^\w\s\-\&\.\,]] *)
Definition not_merchant_char : cclass :=
  CClass true [CWord; CSpace; CChar (ch "-"); CChar (ch "&"); CChar (ch "."); CChar (ch ",")].

Definition digit : cclass := CClass false [CRange (ch "0") (ch "9")].
Definition space : cclass := CClass false [CSpace].
Definition colon_space : cclass := CClass false [CChar (ch ":"); CSpace].

(** [(?:SGD|HKD|CNY|USD|S\$|\$|RM)?] *)
Definition marker : regex :=
  Opt (words ["SGD"; "HKD"; "CNY"; "USD"; "S$"; "$"; "RM"]%string).

(** [[0-9]+[.,][0-9]{2}] *)
Definition token : regex :=
  seqs [Plus digit; Class (CClass false [CChar (ch "."); CChar (ch ",")]); Rep 2 digit].

Definition candidates : list regexp :=
  [ RegExp (seqs [Chars (js "TOTAL"); Plus colon_space; marker; Star space;
                  Group 1 token]) true;
    RegExp (seqs [Group 1 (words ["AMOUNT"; "AMT"; "AMOUNT DUE"]%string);
                  Plus colon_space; marker; Star space; Group 2 token]) true;
    RegExp (seqs [Group 1 (words ["CNY"; "SGD"; "USD"]%string); Star space;
                  Chars (js "AMOUNT"); Plus colon_space; Group 2 token]) true;
    RegExp (seqs [WordB; words ["S$"; "$"]%string; Star space; Group 1 token;
                  WordB]) false ].

(** [/CNY/i], [/SGD|S\$/i] and [/\$/] *)
Definition re_cny : regexp := RegExp (Chars (js "CNY")) true.
Definition re_sgd : regexp := RegExp (words ["SGD"; "S$"]%string) true.
Definition re_dollar : regexp := RegExp (Chars (js "$")) false.

(** The outcome of a call: a value, or a thrown [TypeError]. *)
Inductive outcome (A : Type) : Type :=
| Ok (a : A)
| TypeError.
Arguments TypeError {A}.

Definition bind (A B : Type) (x : outcome A) (f : A -> outcome B) : outcome B :=
  match x with Ok a => f a | TypeError => TypeError end.

Notation "x <- e ;; f" := (bind e (fun x => f))
  (at level 61, e at next level, right associativity).

Record debug_info : Type := Debug { matched : str }.

Record receipt : Type := Receipt {
  merchant : str;
  currency : str;
  amount : number;
  debug : debug_info
}.

(** [(text || "").split(/\r?\n/).map(s => s.trim()).filter(Boolean)] *)
Definition lines_of (text : str) : list str :=
  filter (fun s => match s with [] => false | _ => true end)
         (List.map trim (split re_newline text)).

(** The test of the merchant loop. *)
Definition merchant_line (s : str) : bool :=
  negb (test ban s) && test re_alpha s && (3 <=? length s).

Definition sanitize (s : str) : str := slice0 60 (delete_all not_merchant_char s).

(** The merchant loop, over the lines of index below [Math.min(6, lines.length)]. *)
Fixpoint merchant_loop (ls : list str) (dflt : str) : str :=
  match ls with
  | [] => dflt
  | s :: t => if merchant_line s then sanitize s else merchant_loop t dflt
  end.

Definition find_merchant (lines : list str) : str :=
  merchant_loop (firstn (Nat.min 6 (length lines)) lines) (js "-").

(** The variables [amount], [currency] and [matched] of the amount loops;
    [None] is [null]. *)
Record scan : Type := Scan {
  s_amount : option number;
  s_currency : option str;
  s_matched : str
}.

Definition scan0 : scan := Scan None None [].

(** [m[m.length - 1]]; [None] is [undefined]. *)
Definition last_group (m : list (option str)) : option str :=
  nth (length m - 1) m None.

(** The [if / else if] chain on the matched line; [cur] is the variable
    [currency] before it. *)
Definition infer_currency (line : str) (cur : option str) : option str :=
  if test re_cny line then Some (js "CNY")
  else if test re_sgd line then Some (js "SGD")
  else if test re_dollar line then Some (js "SGD")
  else cur.

(** The body of [if (m) { ... }]. *)
Definition on_match (line : str) (m : list (option str)) (st : scan) : outcome scan :=
  match last_group m with
  | None => TypeError
  | Some val =>
      let amount := parseFloat (replace_str (js ",") [] val) in
      Ok (Scan (Some amount) (infer_currency line (s_currency st)) line)
  end.

(** [for (const re of candidates)] with its [break]. *)
Fixpoint try_patterns (line : str) (res : list regexp) (st : scan) : outcome scan :=
  match res with
  | [] => Ok st
  | re :: t =>
      match str_match line re with
      | Some m => on_match line m st
      | None => try_patterns line t st
      end
  end.

(** [for (const line of lines)] with [if (amount != null) break]. *)
Fixpoint scan_lines (lines : list str) (st : scan) : outcome scan :=
  match lines with
  | [] => Ok st
  | line :: t =>
      st' <- try_patterns line candidates st ;;
      match s_amount st' with
      | Some _ => Ok st'
      | None => scan_lines t st'
      end
  end.

Definition zero : number := Num 0.

(** [currency || "SGD"]: [null] and the empty string are falsy. *)
Definition or_SGD (c : option str) : str :=
  match c with
  | None | Some [] => js "SGD"
  | Some c => c
  end.

(** [amount ?? 0] *)
Definition or_zero (a : option number) : number :=
  match a with Some a => a | None => zero end.

Definition parseReceipt (text : str) : outcome receipt :=
  let lines := lines_of text in
  let merchant := find_merchant lines in
  st <- scan_lines lines scan0 ;;
  Ok (Receipt merchant (or_SGD (s_currency st)) (or_zero (s_amount st))
        (Debug (s_matched st))).

(** * Vocabulary of the properties *)

(** ** What a pattern matches, without the search order

    [matches ic r s s'] : read from state [s], the pattern [r] can stop in
    state [s'].  The matcher [run] explores these runs in the order of
    ECMAScript and takes the first one its continuation accepts. *)

Inductive matches (ic : bool) : regex -> mstate -> mstate -> Prop :=
| M_Chars l s s' :
    eat ic l s = Some s' -> matches ic (Chars l) s s'
| M_Class cs c p t cp :
    class_mem ic cs c = true ->
    matches ic (Class cs) (MState p (c :: t) cp) (MState (c :: p) t cp)
| M_Many lo hi cs w p t cp :
    Forall (fun c => class_mem ic cs c = true) w ->
    lo <= length w ->
    (forall h, hi = Some h -> length w <= h) ->
    matches ic (Many lo hi cs) (MState p (w ++ t) cp) (MState (rev w ++ p) t cp)
| M_Seq a b s1 s2 s3 :
    matches ic a s1 s2 -> matches ic b s2 s3 -> matches ic (Seq a b) s1 s3
| M_AltL a b s s' : matches ic a s s' -> matches ic (Alt a b) s s'
| M_AltR a b s s' : matches ic b s s' -> matches ic (Alt a b) s s'
| M_OptSome a s s' : matches ic a s s' -> matches ic (Opt a) s s'
| M_OptNone a s : matches ic (Opt a) s s
| M_Group i a s s' : matches ic a s s' -> matches ic (Group i a) s (capture i s s')
| M_WordB s :
    xorb (word_at (hd_error (before s))) (word_at (hd_error (after s))) = true ->
    matches ic WordB s s.

(** [w] is the literal [l], letter case ignored when [ic] is set. *)
Definition ci_eq (ic : bool) (l w : str) : Prop :=
  Forall2 (fun a c => char_eq ic a c = true) l w.

(** [line] contains [term], letter case ignored when [ic] is set. *)
Definition contains (ic : bool) (term line : str) : Prop :=
  exists pre w post, line = pre ++ w ++ post /\ ci_eq ic term w.

(** ** Tokens and amounts *)

(** A token: digits, a period or a comma, two digits. *)
Definition token_shape (v : str) : Prop :=
  exists ds sep d1 d2,
    v = ds ++ [sep; d1; d2] /\ ds <> [] /\
    Forall (fun c => isDigit c = true) ds /\
    (sep = ch "." \/ sep = ch ",") /\ isDigit d1 = true /\ isDigit d2 = true.

(** A pattern whose last capture group is group [n] and holds a token. *)
Fixpoint ends_in_token (n : nat) (r : regex) : Prop :=
  match r with
  | Group i a => i = n /\ a = token
  | Seq a b => ends_in_token n b \/ (ends_in_token n a /\ ngroups b = 0)
  | _ => False
  end.

(** A number that is not [NaN] and not below zero. *)
Definition nonneg (n : number) : Prop :=
  match n with
  | Num q => (0 <= q)%Q
  | NaN => False
  end.

(** ** The loops *)

(** No pattern of [candidates] matches the line. *)
Definition no_match (line : str) : Prop :=
  forall re, In re candidates -> str_match line re = None.

(** The invariant of the amount loops: [amount] is unset, and then no line
    is recorded, or it is a decimal that is not negative; [currency] is unset
    or one of the two codes the source assigns. *)
Definition scan_ok (st : scan) : Prop :=
  match s_amount st with Some a => nonneg a | None => s_matched st = [] end /\
  (s_currency st = None \/ s_currency st = Some (js "CNY")
   \/ s_currency st = Some (js "SGD")).

(** Word characters, white space, hyphen, ampersand, period and comma. *)
Definition merchant_char (c : N) : bool :=
  isWord c || isSpace c || N.eqb c (ch "-") || N.eqb c (ch "&")
  || N.eqb c (ch ".") || N.eqb c (ch ",").

(** ** Records and texts of the examples *)

Definition default_receipt : receipt := Receipt (js "-") (js "SGD") zero (Debug []).

Definition store_text : str :=
  js "STORE NAME" ++ [LF] ++ js "DATE: 01/01/2024" ++ [LF] ++ js "TOTAL: 12.00".

Definition due_text : str := js "Cafe Uno" ++ [LF] ++ js "AMOUNT DUE: $9.99".

Definition noise_text : str := js "#### 12.5" ++ [CR; LF] ++ js "  ??" ++ [LF] ++ js "TOTAL 7".

(** * The rest of [server.js] *)

(** ** Values the server receives from outside *)

(** A JavaScript value as far as [||] and [=== 429] look at it: [undefined],
    a number, or any other value, of which only the truthiness counts.  A
    property read through [?.] on [null] or [undefined] is [undefined]. *)
Inductive jsval : Type :=
| JUndefined
| JNumber (z : Z)
| JOther (truthy : bool).

Definition truthy (v : jsval) : bool :=
  match v with
  | JUndefined => false
  | JNumber z => negb (Z.eqb z 0)
  | JOther b => b
  end.

(** [a || b] *)
Definition js_or (a b : jsval) : jsval := if truthy a then a else b.

(** [v === 429] *)
Definition is_429 (v : jsval) : bool :=
  match v with
  | JNumber z => Z.eqb z 429
  | _ => false
  end.

(** What the handler reads of a thrown value [e]: [e?.status] and
    [e?.response?.status]. *)
Record thrown : Type := Thrown { status : jsval; response_status : jsval }.

(** An awaited call: it returns, or it throws. *)
Inductive attempt (A : Type) : Type :=
| Returned (a : A)
| Threw (e : thrown).
Arguments Threw {A} e.

(** The part of a chat completion that [runYourOCR] reads; [None] is a
    missing or [null] property. *)
Record chat_message : Type := ChatMessage { content : option str }.
Record choice : Type := Choice { message : option chat_message }.
Record completion : Type := Completion { choices : option (list choice) }.

(** [resp.choices?.[0]?.message?.content || ""] *)
Definition first_content (resp : completion) : str :=
  match choices resp with
  | Some (c :: _) =>
      match message c with
      | Some m => match content m with Some s => s | None => [] end
      | None => []
      end
  | _ => []
  end.

(** [runYourOCR(filePath)]: reading the file and calling the model are one
    awaited step, given as [world]. *)
Definition runYourOCR (world : str -> attempt completion) (filePath : str) : attempt str :=
  match world filePath with
  | Returned resp => Returned (first_content resp)
  | Threw e => Threw e
  end.

(** ** The route [POST /ocr] *)

Inductive reply_body : Type :=
| Success (merchant : str) (amount : number) (currency : str)  (* ok: true *)
| Failure (code : str) (message : str).                        (* ok: false *)

Record reply : Type := Reply { http_status : nat; body : reply_body }.

Definition msg_nofile : str :=
  [26410; 25509; 25910; 21040; 22270; 29255; 25991; 20214]%N.

Definition msg_quota : str :=
  [35782; 21035; 26381; 21153; 39069; 24230; 19981; 36275; 65292; 35831;
   22312; 32; 79; 112; 101; 110; 65; 73; 32; 66; 105; 108; 108; 105; 110;
   103; 32; 20013; 24320; 36890; 47; 20805; 20540; 21518; 20877; 35797;
   12290]%N.

Definition msg_error : str :=
  [35782; 21035; 22833; 36133; 65292; 35831; 31245; 21518; 37325; 35797;
   12290]%N.

(** The [catch] block. *)
Definition on_error (e : thrown) : reply :=
  let code := js_or (status e) (response_status e) in
  if is_429 code then Reply 200 (Failure (js "QUOTA") msg_quota)
  else Reply 200 (Failure (js "ERROR") msg_error).

(** A [TypeError] thrown by the parser has no [status] and no [response]. *)
Definition type_error : thrown := Thrown JUndefined JUndefined.

(** The handler; [file_path] is [req.file?.path], [None] when there is no
    file. *)
Definition ocr_route (world : str -> attempt completion) (file_path : option str) : reply :=
  match file_path with
  | None | Some [] => Reply 200 (Failure (js "NOFILE") msg_nofile)
  | Some path =>
      match runYourOCR world path with
      | Threw e => on_error e
      | Returned text =>
          match parseReceipt (match text with [] => [] | _ => text end) with
          | Ok parsed =>
              Reply 200 (Success (merchant parsed) (amount parsed) (currency parsed))
          | TypeError => on_error type_error
          end
      end
  end.

(** ** Start-up *)

Fixpoint str_eqb (a b : str) : bool :=
  match a, b with
  | [], [] => true
  | x :: a', y :: b' => N.eqb x y && str_eqb a' b'
  | _, _ => false
  end.

(** An entry of [os.networkInterfaces()]. *)
Record iface : Type := Iface { family : str; internal : bool; address : str }.

(** The test of the inner loop of [getLANIP]. *)
Definition external_v4 (i : iface) : bool :=
  str_eqb (family i) (js "IPv4") && negb (internal i).

(** [for (const i of ifs[name] || [])] with its [return]. *)
Fixpoint first_external (l : list iface) : option str :=
  match l with
  | [] => None
  | i :: t => if external_v4 i then Some (address i) else first_external t
  end.

(** [ifs[name] || []]; [None] is [undefined]. *)
Definition addresses_of (v : option (list iface)) : list iface :=
  match v with Some l => l | None => [] end.

(** [for (const name of Object.keys(ifs))]: the names in the order of
    [Object.keys], each with [ifs[name]]. *)
Fixpoint lan_loop (ifs : list (str * option (list iface))) : option str :=
  match ifs with
  | [] => None
  | (_, v) :: t =>
      match first_external (addresses_of v) with
      | Some a => Some a
      | None => lan_loop t
      end
  end.

Definition getLANIP (ifs : list (str * option (list iface))) : str :=
  match lan_loop ifs with
  | Some a => a
  | None => js "localhost"
  end.

(** ** Vocabulary of the further properties *)

(** The lines written one per line, [sep] between them. *)
Fixpoint join (sep : str) (ls : list str) : str :=
  match ls with
  | [] => []
  | [l] => l
  | l :: t => l ++ sep ++ join sep t
  end.

(** No white space at either end. *)
Definition trimmed (s : str) : Prop :=
  match s with c :: _ => isSpace c = false | [] => True end /\
  match rev s with c :: _ => isSpace c = false | [] => True end.

(** A line as [lines_of] returns them: not empty, trimmed, without line
    feed. *)
Definition normal_line (s : str) : Prop :=
  s <> [] /\ trimmed s /\ ~ In LF s.

(** Where [/\r?\n/] matches at the head of [rest], and over how many code
    units. *)
Definition newline_at (rest : str) : option nat :=
  match rest with
  | c :: t =>
      if N.eqb c LF then Some 1
      else if N.eqb c CR
           then match t with
                | c' :: _ => if N.eqb c' LF then Some 2 else None
                | [] => None
                end
           else None
  | [] => None
  end.

(** A period or a comma. *)
Definition isSeparator (c : N) : bool := N.eqb c (ch ".") || N.eqb c (ch ",").

(** The line holds a digit, a separator and two digits in a row: the tail of
    every token. *)
Fixpoint has_token (s : str) : bool :=
  match s with
  | a :: t =>
      match t with
      | b :: c :: d :: _ =>
          (isDigit a && isSeparator b && isDigit c && isDigit d) || has_token t
      | _ => false
      end
  | [] => false
  end.


(** Six lines of receipt data and a seventh line. *)
Definition window_text (last_line : str) : str :=
  join [LF] [js "RECEIPT"; js "DATE 01/02"; js "TIME 10:00"; js "INVOICE 7";
             js "CASHIER 3"; js "TID 99"; last_line].

(** An ASCII letter, as [/[A-Za-z]/] tests it. *)
Definition isLetter (c : N) : bool := between 65 90 c || between 97 122 c.

(** * Matcher theory *)

(** ** The matcher finds exactly the runs of [matches] *)

Section Matches.
Variable ic : bool.

Lemma orelse_some (A : Type) (x y : option A) (v : A) :
  orelse x y = Some v -> x = Some v \/ (x = None /\ y = Some v).
Proof. destruct x; simpl; intros H; [left | right]; auto. Qed.

Lemma orelse_left (A : Type) (x y : option A) : x <> None -> orelse x y <> None.
Proof. destruct x; simpl; auto. Qed.

Lemma orelse_right (A : Type) (x y : option A) : y <> None -> orelse x y <> None.
Proof. destruct x; simpl; auto; discriminate. Qed.

Lemma many_sound cs k cp rest :
  forall lo hi prev x,
    many ic cs lo hi k cp prev rest = Some x ->
    exists w t,
      rest = w ++ t /\ Forall (fun c => class_mem ic cs c = true) w /\
      lo <= length w /\ (forall h, hi = Some h -> length w <= h) /\
      k (MState (rev w ++ prev) t cp) = Some x.
Proof.
  assert (Hstop : forall lo hi prev rest x,
    match lo with O => k (MState prev rest cp) | S _ => None end = Some x ->
    exists w t,
      rest = w ++ t /\ Forall (fun c => class_mem ic cs c = true) w /\
      lo <= length w /\ (forall h, hi = Some h -> length w <= h) /\
      k (MState (rev w ++ prev) t cp) = Some x).
  { intros lo hi prev r x H. destruct lo; [|discriminate].
    exists [], r. simpl. repeat split; auto; intros; lia. }
  induction rest as [|c t IH]; intros lo hi prev x H.
  - simpl in H. apply Hstop. destruct hi as [[|h]|]; exact H.
  - simpl in H.
    assert (Hstep : hi <> Some 0 -> class_mem ic cs c = true ->
      many ic cs (pred lo) (option_map pred hi) k cp (c :: prev) t = Some x ->
      exists w t0,
        c :: t = w ++ t0 /\ Forall (fun c => class_mem ic cs c = true) w /\
        lo <= length w /\ (forall h, hi = Some h -> length w <= h) /\
        k (MState (rev w ++ prev) t0 cp) = Some x).
    { intros Hhi Hc Hm. destruct (IH _ _ _ _ Hm) as (w & t0 & -> & Hw & Hlo & Hh & Hk).
      exists (c :: w), t0. simpl. rewrite <- app_assoc. simpl.
      repeat split; auto; [lia|].
      intros h ->. destruct h as [|h]; [congruence|].
      specialize (Hh h eq_refl). lia. }
    destruct hi as [[|h]|].
    + apply Hstop. exact H.
    + destruct (class_mem ic cs c) eqn:Hc; [|apply Hstop; exact H].
      apply orelse_some in H. destruct H as [H|[_ H]]; [|apply Hstop; exact H].
      apply Hstep; auto; discriminate.
    + destruct (class_mem ic cs c) eqn:Hc; [|apply Hstop; exact H].
      apply orelse_some in H. destruct H as [H|[_ H]]; [|apply Hstop; exact H].
      apply Hstep; auto; discriminate.
Qed.

Lemma many_complete cs k cp w :
  forall lo hi prev t,
    Forall (fun c => class_mem ic cs c = true) w ->
    lo <= length w ->
    (forall h, hi = Some h -> length w <= h) ->
    k (MState (rev w ++ prev) t cp) <> None ->
    many ic cs lo hi k cp prev (w ++ t) <> None.
Proof.
  induction w as [|c w IH]; intros lo hi prev t Hw Hlo Hhi Hk.
  - simpl in *. assert (lo = 0) by lia. subst lo.
    destruct t as [|c t]; simpl.
    + destruct hi as [[|h]|]; exact Hk.
    + destruct hi as [[|h]|]; try exact Hk;
        (destruct (class_mem ic cs c); [apply orelse_right|]; exact Hk).
  - inversion Hw as [|? ? Hc Hw']; subst.
    assert (Hrec : many ic cs (pred lo) (option_map pred hi) k cp (c :: prev) (w ++ t) <> None).
    { apply IH; auto.
      - simpl in Hlo. lia.
      - intros h Hh. destruct hi as [h0|]; [|discriminate]. simpl in Hh.
        injection Hh as <-. specialize (Hhi h0 eq_refl). simpl in Hhi. lia.
      - simpl in Hk. rewrite <- app_assoc in Hk. exact Hk. }
    simpl. destruct hi as [[|h]|].
    + specialize (Hhi 0 eq_refl). simpl in Hhi. lia.
    + rewrite Hc. apply orelse_left. exact Hrec.
    + rewrite Hc. apply orelse_left. exact Hrec.
Qed.

Theorem run_sound r :
  forall k s x, run ic r k s = Some x -> exists s', matches ic r s s' /\ k s' = Some x.
Proof.
  induction r as [l|cs|lo hi cs|a IHa b IHb|a IHa b IHb|a IHa|i a IHa|];
    intros k s x H; simpl in H.
  - destruct (eat ic l s) as [s'|] eqn:He; [|discriminate].
    exists s'. split; [constructor|]; auto.
  - destruct s as [p [|c t] cp]; simpl in H; [discriminate|].
    destruct (class_mem ic cs c) eqn:Hc; [|discriminate].
    eexists. split; [constructor; exact Hc | exact H].
  - destruct s as [p r cp]. simpl in H.
    destruct (many_sound _ _ _ _ _ _ _ H) as (w & t & -> & Hw & Hlo & Hhi & Hk).
    eexists. split; [constructor; eauto | exact Hk].
  - destruct (IHa _ _ _ H) as (s2 & Ha & H2).
    destruct (IHb _ _ _ H2) as (s3 & Hb & H3).
    exists s3. split; [econstructor; eauto | exact H3].
  - apply orelse_some in H. destruct H as [H|[_ H]].
    + destruct (IHa _ _ _ H) as (s' & Ha & Hk). exists s'. split; [apply M_AltL|]; auto.
    + destruct (IHb _ _ _ H) as (s' & Hb & Hk). exists s'. split; [apply M_AltR|]; auto.
  - apply orelse_some in H. destruct H as [H|[_ H]].
    + destruct (IHa _ _ _ H) as (s' & Ha & Hk). exists s'. split; [apply M_OptSome|]; auto.
    + exists s. split; [apply M_OptNone | exact H].
  - destruct (IHa _ _ _ H) as (s' & Ha & Hk).
    eexists. split; [apply M_Group; exact Ha | exact Hk].
  - destruct (xorb _ _) eqn:Hx; [|discriminate].
    exists s. split; [constructor; exact Hx | exact H].
Qed.

Theorem run_complete r s s' :
  matches ic r s s' -> forall k, k s' <> None -> run ic r k s <> None.
Proof.
  induction 1 as [l s s' He|cs c p t cp Hc|lo hi cs w p t cp Hw Hlo Hhi
                 |a b s1 s2 s3 _ IHa _ IHb|a b s s' _ IH|a b s s' _ IH
                 |a s s' _ IH|a s|i a s s' _ IH|s Hx];
    intros k Hk; simpl.
  - rewrite He. exact Hk.
  - rewrite Hc. exact Hk.
  - apply many_complete; auto.
  - apply IHa. apply IHb. exact Hk.
  - apply orelse_left. apply IH. exact Hk.
  - apply orelse_right. apply IH. exact Hk.
  - apply orelse_left. apply IH. exact Hk.
  - apply orelse_right. exact Hk.
  - apply IH. exact Hk.
  - rewrite Hx. exact Hk.
Qed.

Lemma search_sound r n rest :
  forall prev x,
    search ic r n prev rest = Some x ->
    exists a b s',
      rest = a ++ b /\
      matches ic r (MState (rev a ++ prev) b (repeat None n)) s' /\
      x = capture 0 (MState (rev a ++ prev) b (repeat None n)) s'.
Proof.
  induction rest as [|c t IH]; intros prev x H; simpl in H.
  - destruct (run ic r _ _) eqn:Hr; [|discriminate].
    injection H as <-.
    destruct (run_sound _ _ _ Hr) as (s' & Hm & Hk). injection Hk as <-.
    exists [], [], s'. auto.
  - destruct (run ic r _ _) eqn:Hr.
    + injection H as <-.
      destruct (run_sound _ _ _ Hr) as (s' & Hm & Hk). injection Hk as <-.
      exists [], (c :: t), s'. auto.
    + destruct (IH _ _ H) as (a & b & s' & -> & Hm & ->).
      exists (c :: a), b, s'. simpl. rewrite <- app_assoc. simpl. auto.
Qed.

Lemma search_complete r n a :
  forall prev b s',
    matches ic r (MState (rev a ++ prev) b (repeat None n)) s' ->
    search ic r n prev (a ++ b) <> None.
Proof.
  induction a as [|c a IH]; intros prev b s' Hm.
  - simpl in Hm.
    assert (Hr : run ic r (fun s'0 => Some (capture 0 (MState prev b (repeat None n)) s'0))
                   (MState prev b (repeat None n)) <> None).
    { apply run_complete with (s' := s'); [exact Hm | discriminate]. }
    destruct b; simpl; destruct (run ic r _ _); try discriminate; congruence.
  - simpl. destruct (run ic r _ _); [discriminate|].
    apply IH with (s' := s'). simpl in Hm. rewrite <- app_assoc in Hm. exact Hm.
Qed.
End Matches.

(** ** Shape of a run: what was read, and the capture array *)

Section Shape.
Variable ic : bool.

Lemma eat_sound l :
  forall s s',
    eat ic l s = Some s' ->
    exists w, ci_eq ic l w /\ after s = w ++ after s' /\
              before s' = rev w ++ before s /\ caps s' = caps s.
Proof.
  induction l as [|a l IH]; intros s s' H; simpl in H.
  - injection H as <-. exists []. repeat split; auto. constructor.
  - destruct (after s) as [|c t] eqn:Ha; [discriminate|].
    destruct (char_eq ic a c) eqn:Hc; [|discriminate].
    destruct (IH _ _ H) as (w & Hw & Hafter & Hbefore & Hcaps). simpl in *.
    exists (c :: w). repeat split; auto.
    + constructor; auto.
    + simpl. congruence.
    + simpl. rewrite <- app_assoc. exact Hbefore.
Qed.

Lemma eat_complete l :
  forall w p t cp,
    ci_eq ic l w -> eat ic l (MState p (w ++ t) cp) = Some (MState (rev w ++ p) t cp).
Proof.
  induction l as [|a l IH]; intros w p t cp H; inversion H; subst; simpl.
  - reflexivity.
  - rewrite H2. rewrite IH by assumption. rewrite <- app_assoc. reflexivity.
Qed.

Lemma matches_extends r s s' :
  matches ic r s s' ->
  exists w, after s = w ++ after s' /\ before s' = rev w ++ before s.
Proof.
  induction 1 as [l s s' He|cs c p t cp Hc|lo hi cs w p t cp Hw Hlo Hhi
                 |a b s1 s2 s3 _ IHa _ IHb|a b s s' _ IH|a b s s' _ IH
                 |a s s' _ IH|a s|i a s s' _ IH|s Hx]; simpl; auto.
  - destruct (eat_sound _ _ He) as (w & _ & H1 & H2 & _). eauto.
  - exists [c]. auto.
  - eauto.
  - destruct IHa as (w1 & A1 & B1), IHb as (w2 & A2 & B2).
    exists (w1 ++ w2). rewrite A1, A2, B2, B1, rev_app_distr, !app_assoc. auto.
  - exists []. auto.
  - exists []. auto.
Qed.

Lemma consumed_word s s' w : before s' = rev w ++ before s -> consumed s s' = w.
Proof.
  intros H. unfold consumed. rewrite H, length_app, Nat.add_sub.
  rewrite firstn_app, Nat.sub_diag, firstn_all. simpl.
  rewrite app_nil_r. apply rev_involutive.
Qed.

Lemma set_nth_length (A : Type) (x : A) l : forall i, length (set_nth i x l) = length l.
Proof. induction l; intros [|i]; simpl; auto. Qed.

Lemma nth_set_nth_eq (A : Type) (x d : A) l :
  forall i, i < length l -> nth i (set_nth i x l) d = x.
Proof.
  induction l; intros [|i] H; simpl in *; try lia; auto. apply IHl. lia.
Qed.

Lemma nth_set_nth_neq (A : Type) (x d : A) l :
  forall i j, i <> j -> nth j (set_nth i x l) d = nth j l d.
Proof.
  induction l; intros [|i] [|j] H; simpl in *; auto; try congruence.
Qed.

Lemma matches_caps_length r s s' :
  matches ic r s s' -> length (caps s') = length (caps s).
Proof.
  induction 1; simpl; auto; try congruence.
  - destruct (eat_sound _ _ H) as (_ & _ & _ & _ & ->). reflexivity.
  - rewrite set_nth_length. exact IHmatches.
Qed.

Lemma matches_no_groups r s s' :
  matches ic r s s' -> ngroups r = 0 -> caps s' = caps s.
Proof.
  induction 1; simpl; intros Hg; auto; try lia.
  - destruct (eat_sound _ _ H) as (_ & _ & _ & _ & ->). reflexivity.
  - rewrite IHmatches2, IHmatches1 by lia. reflexivity.
  - apply IHmatches. lia.
  - apply IHmatches. lia.
Qed.
End Shape.

(** ** The amount token *)

Ltac cases_N :=
  repeat match goal with
         | |- context [N.leb ?a ?b] => destruct (N.leb_spec a b)
         | |- context [N.eqb ?a ?b] => destruct (N.eqb_spec a b)
         | H : context [N.leb ?a ?b] |- _ => destruct (N.leb_spec a b)
         | H : context [N.eqb ?a ?b] |- _ => destruct (N.eqb_spec a b)
         end;
  simpl in *; try congruence; try lia.

Lemma digit_mem ic c : class_mem ic digit c = isDigit c.
Proof.
  unfold class_mem, digit, isDigit, item_mem, upper, lower, between, ch; simpl.
  destruct ic; cases_N.
Qed.

Lemma separator_mem ic c :
  class_mem ic (CClass false [CChar (ch "."); CChar (ch ",")]) c = true ->
  c = ch "." \/ c = ch ",".
Proof.
  unfold class_mem, item_mem, char_eq, canon, upper, between, ch; simpl.
  destruct ic; cases_N; auto.
Qed.

Lemma matches_token ic s s' :
  matches ic token s s' -> caps s' = caps s /\ token_shape (consumed s s').
Proof.
  intros H. split.
  - apply (matches_no_groups H). reflexivity.
  - unfold token in H. simpl in H.
    inversion H as [| | |a b s1 s2 s3 H1 H23| | | | | |]; subst; clear H.
    inversion H23 as [| | |a b s1 s3 s4 H2 H3| | | | | |]; subst; clear H23.
    inversion H1 as [| |lo hi cs w1 p1 t1 cp1 Hw1 Hlo1 _| | | | | | |]; subst; clear H1.
    inversion H2 as [|cs c p2 t2 cp2 Hc| | | | | | | |]; subst; clear H2.
    inversion H3 as [| |lo hi cs w2 p3 t3 cp3 Hw2 Hlo2 Hhi2| | | | | | |]; subst; clear H3.
    specialize (Hhi2 2 eq_refl).
    destruct w2 as [|d1 [|d2 [|? ?]]]; simpl in *; try lia.
    inversion Hw2 as [|? ? Hd1 Hw2']; subst. inversion Hw2' as [|? ? Hd2 _]; subst.
    rewrite digit_mem in Hd1, Hd2.
    exists w1, c, d1, d2. repeat split; auto.
    + apply consumed_word. simpl. rewrite rev_app_distr. simpl.
      reflexivity.
    + intros ->. simpl in Hlo1. lia.
    + eapply Forall_impl; [|exact Hw1]. intros x Hx. simpl in Hx.
      rewrite digit_mem in Hx. exact Hx.
    + apply separator_mem with (ic := ic). exact Hc.
Qed.

Lemma matches_ends_in_token ic n r :
  ends_in_token n r ->
  forall s s',
    matches ic r s s' -> n < length (caps s) ->
    exists v, nth n (caps s') None = Some v /\ token_shape v.
Proof.
  induction r as [l|cs|lo hi cs|a IHa b IHb|a IHa b IHb|a IHa|i a IHa|];
    simpl; intros He s s' Hm Hn; try contradiction.
  - inversion Hm as [| | |a0 b0 s1 s2 s3 H1 H2| | | | | |]; subst.
    destruct He as [He|[He Hg]].
    + apply (IHb He _ _ H2). rewrite (matches_caps_length H1). exact Hn.
    + rewrite (matches_no_groups H2 Hg). apply (IHa He _ _ H1 Hn).
  - destruct He as [-> ->].
    inversion Hm as [| | | | | | | |i0 a0 s0 s0' H1|]; subst.
    destruct (matches_token H1) as [Hc Ht].
    exists (consumed s s0'). split; [|exact Ht].
    simpl. apply nth_set_nth_eq. rewrite Hc. exact Hn.
Qed.

Lemma candidates_end_in_token re :
  In re candidates -> 0 < ngroups (pattern re) /\ ends_in_token (ngroups (pattern re)) (pattern re).
Proof.
  intros H. simpl in H.
  destruct H as [<-|[<-|[<-|[<-|[]]]]]; simpl; split; try lia; tauto.
Qed.

(** Every match of a candidate pattern has its last group defined, and that
    group holds a token. *)
Lemma candidate_match line re m :
  In re candidates -> str_match line re = Some m ->
  exists val, last_group m = Some val /\ token_shape val.
Proof.
  intros Hin Hm. destruct (candidates_end_in_token Hin) as [Hpos He].
  unfold str_match, exec in Hm.
  destruct (search _ _ _ _ _) as [x|] eqn:Hs; [|discriminate].
  injection Hm as <-.
  destruct (search_sound _ _ _ _ _ Hs) as (a & b & s' & _ & Hr & ->).
  destruct (@matches_ends_in_token _ _ _ He _ _ Hr) as (v & Hv & Ht).
  { simpl. rewrite repeat_length. lia. }
  exists v. split; [|exact Ht].
  unfold last_group, capture. cbn [caps].
  rewrite set_nth_length, (matches_caps_length Hr). cbn [caps].
  rewrite repeat_length.
  replace (S (ngroups (pattern re)) - 1) with (ngroups (pattern re)) by lia.
  rewrite nth_set_nth_neq by lia. exact Hv.
Qed.

(** ** The amount read from a token *)

Lemma digits_val_nonneg ds : (0 <= digits_val ds)%Z.
Proof.
  unfold digits_val.
  assert (H : forall l b, (0 <= b)%Z ->
            (0 <= fold_left (fun x c => 10 * x + Z.of_N (c - 48)) l b)%Z).
  { induction l as [|c l IH]; intros b Hb; cbn [fold_left]; [exact Hb|].
    apply IH. lia. }
  apply H. lia.
Qed.

Lemma decimal_nonneg ip fp : (0 <= decimal ip fp)%Q.
Proof.
  unfold decimal. rewrite Qred_correct. unfold Qle. simpl.
  pose proof (digits_val_nonneg (ip ++ fp)). lia.
Qed.

Lemma span_digits_app ds r :
  Forall (fun c => isDigit c = true) ds ->
  match r with [] => True | c :: _ => isDigit c = false end ->
  span_digits (ds ++ r) = (ds, r).
Proof.
  intros Hd Hr. induction Hd as [|c ds Hc _ IH]; simpl.
  - destruct r as [|c t]; [reflexivity|]. simpl. rewrite Hr. reflexivity.
  - rewrite Hc, IH. reflexivity.
Qed.

Lemma replace_comma_digits ds r :
  Forall (fun c => isDigit c = true) ds ->
  replace_str (js ",") [] (ds ++ r) = ds ++ replace_str (js ",") [] r.
Proof.
  induction 1 as [|c ds Hc _ IH]; [reflexivity|].
  simpl app. cbn [replace_str strip_prefix js List.map String.list_ascii_of_string].
  replace (N.eqb (N_of_ascii ",") c) with false.
  - f_equal. exact IH.
  - unfold isDigit, between in Hc. change (N_of_ascii ",") with 44%N. cases_N.
Qed.

(** With a period the token is read as written. *)
Lemma token_amount_period ds d1 d2 :
  ds <> [] -> Forall (fun c => isDigit c = true) ds ->
  isDigit d1 = true -> isDigit d2 = true ->
  parseFloat (replace_str (js ",") [] (ds ++ [ch "."; d1; d2]))
  = Num (decimal ds [d1; d2]).
Proof.
  intros Hne Hds H1 H2. rewrite replace_comma_digits by assumption.
  replace (replace_str (js ",") [] [ch "."; d1; d2]) with [ch "."; d1; d2].
  - unfold parseFloat. rewrite span_digits_app by (auto; reflexivity).
    change (N.eqb (ch ".") 46) with true. cbn iota.
    replace (span_digits [d1; d2]) with ([d1; d2], @nil N)
      by (simpl; rewrite H1, H2; reflexivity).
    destruct ds; [congruence | reflexivity].
  - change (js ",") with [44%N]. change (ch ".") with 46%N.
    unfold isDigit, between in H1, H2.
    cbn [replace_str strip_prefix]. cases_N.
Qed.

(** With a comma the separator is deleted and the digits are read as one
    integer. *)
Lemma token_amount_comma ds d1 d2 :
  ds <> [] -> Forall (fun c => isDigit c = true) ds ->
  isDigit d1 = true -> isDigit d2 = true ->
  parseFloat (replace_str (js ",") [] (ds ++ [ch ","; d1; d2]))
  = Num (decimal (ds ++ [d1; d2]) []).
Proof.
  intros Hne Hds H1 H2. rewrite replace_comma_digits by assumption.
  replace (replace_str (js ",") [] [ch ","; d1; d2]) with [d1; d2] by reflexivity.
  unfold parseFloat.
  replace (ds ++ [d1; d2]) with ((ds ++ [d1; d2]) ++ []) at 1 by apply app_nil_r.
  rewrite span_digits_app.
  - destruct ds; [congruence | reflexivity].
  - apply Forall_app. split; auto.
  - exact I.
Qed.

Lemma token_amount_nonneg val :
  token_shape val -> nonneg (parseFloat (replace_str (js ",") [] val)).
Proof.
  intros (ds & sep & d1 & d2 & -> & Hne & Hds & [-> | ->] & H1 & H2).
  - rewrite token_amount_period by assumption. apply decimal_nonneg.
  - rewrite token_amount_comma by assumption. apply decimal_nonneg.
Qed.

(** ** The amount loops *)

Lemma try_patterns_none line res st :
  (forall re, In re res -> str_match line re = None) ->
  try_patterns line res st = Ok st.
Proof.
  induction res as [|re res IH]; intros H; simpl; [reflexivity|].
  rewrite (H re) by (left; reflexivity). apply IH.
  intros re' Hin. apply H. right. exact Hin.
Qed.

Lemma try_patterns_first line r1 re r2 m st :
  (forall re', In re' r1 -> str_match line re' = None) ->
  str_match line re = Some m ->
  try_patterns line (r1 ++ re :: r2) st = on_match line m st.
Proof.
  induction r1 as [|x r1 IH]; intros H Hm; simpl.
  - rewrite Hm. reflexivity.
  - rewrite (H x) by (left; reflexivity). apply IH; auto.
    intros re' Hin. apply H. right. exact Hin.
Qed.

Lemma scan_lines_skip pre rest st :
  Forall no_match pre -> s_amount st = None ->
  scan_lines (pre ++ rest) st = scan_lines rest st.
Proof.
  intros H Ha. induction H as [|l pre Hl _ IH]; [reflexivity|].
  cbn [app scan_lines]. rewrite try_patterns_none by exact Hl.
  unfold bind. rewrite Ha. exact IH.
Qed.

Lemma scan_lines_first pre line post k re m :
  Forall no_match pre ->
  nth_error candidates k = Some re ->
  (forall j re', j < k -> nth_error candidates j = Some re' -> str_match line re' = None) ->
  str_match line re = Some m ->
  exists val,
    last_group m = Some val /\ token_shape val /\
    scan_lines (pre ++ line :: post) scan0
    = Ok (Scan (Some (parseFloat (replace_str (js ",") [] val)))
            (infer_currency line None) line).
Proof.
  intros Hpre Hk Hbefore Hm.
  destruct (@candidate_match line re m) as (val & Hv & Ht);
    [eapply nth_error_In; eassumption | assumption |].
  exists val. repeat split; auto.
  rewrite scan_lines_skip by (auto; reflexivity).
  cbn [scan_lines].
  {
    destruct (nth_error_split _ _ Hk) as (r1 & r2 & Hc & Hlen).
    rewrite Hc. rewrite try_patterns_first with (m := m); auto.
    - unfold on_match. rewrite Hv. reflexivity.
    - intros re' Hin. destruct (In_nth_error _ _ Hin) as [j Hj].
      apply (Hbefore j); [|rewrite Hc, nth_error_app1; auto].
      + rewrite <- Hlen. apply nth_error_Some. congruence.
      + apply nth_error_Some. congruence. }
Qed.

Lemma infer_currency_cases line cur :
  cur = None \/ cur = Some (js "CNY") \/ cur = Some (js "SGD") ->
  infer_currency line cur = None \/ infer_currency line cur = Some (js "CNY")
  \/ infer_currency line cur = Some (js "SGD").
Proof.
  intros H. unfold infer_currency.
  destruct (test re_cny line); auto.
  destruct (test re_sgd line); auto.
  destruct (test re_dollar line); auto.
Qed.

Lemma try_patterns_ok line res st :
  incl res candidates -> scan_ok st ->
  exists st', try_patterns line res st = Ok st' /\ scan_ok st'.
Proof.
  induction res as [|re res IH]; intros Hincl Hst; simpl.
  - exists st. auto.
  - destruct (str_match line re) as [m|] eqn:Hm.
    + destruct (@candidate_match line re m) as (val & Hv & Ht); auto.
      { apply Hincl. left. reflexivity. }
      unfold on_match. rewrite Hv. eexists. split; [reflexivity|].
      split; simpl.
      * apply token_amount_nonneg. exact Ht.
      * apply infer_currency_cases. apply Hst.
    + apply IH; auto. intros x Hx. apply Hincl. right. exact Hx.
Qed.

Lemma scan_lines_ok lines :
  forall st, scan_ok st -> exists st', scan_lines lines st = Ok st' /\ scan_ok st'.
Proof.
  induction lines as [|l t IH]; intros st Hst; cbn [scan_lines].
  - exists st. auto.
  - destruct (@try_patterns_ok l candidates st) as (st1 & -> & H1); auto.
    { apply incl_refl. }
    unfold bind. destruct (s_amount st1) eqn:Ha; [exists st1; auto|].
    apply IH. exact H1.
Qed.

Lemma scan0_ok : scan_ok scan0.
Proof. split; simpl; auto. Qed.

Lemma scan_lines_none lines :
  Forall no_match lines -> scan_lines lines scan0 = Ok scan0.
Proof.
  intros H. rewrite <- (app_nil_r lines), scan_lines_skip by (auto; reflexivity).
  reflexivity.
Qed.

Lemma first_pattern line :
  no_match line \/
  exists k re m,
    nth_error candidates k = Some re /\
    (forall j re', j < k -> nth_error candidates j = Some re' -> str_match line re' = None) /\
    str_match line re = Some m.
Proof.
  unfold no_match. generalize candidates. intros res.
  induction res as [|x res IH].
  - left. intros re [].
  - destruct (str_match line x) as [m|] eqn:Hx.
    + right. exists 0, x, m. repeat split; auto. intros j re' Hj. lia.
    + destruct IH as [IH|(k & re & m & Hk & Hb & Hm)].
      * left. intros re [<-|Hin]; auto.
      * right. exists (S k), re, m. repeat split; auto.
        intros [|j] re' Hj Hn; simpl in Hn; [congruence|].
        apply (Hb j); auto. lia.
Qed.

(** ** Substring tests *)

Lemma words_intro ic terms term s s' :
  In term terms -> matches ic (Chars (js term)) s s' -> matches ic (words terms) s s'.
Proof.
  unfold words. induction terms as [|x l IH]; intros Hin Hm; [destruct Hin|].
  destruct l as [|y l].
  - destruct Hin as [<-|[]]. exact Hm.
  - change (matches ic (Alt (Chars (js x)) (alts (List.map (fun w => Chars (js w)) (y :: l)))) s s').
    destruct Hin as [<-|Hin]; [apply M_AltL; exact Hm|].
    apply M_AltR. apply IH; auto.
Qed.

Lemma words_elim ic terms s s' :
  matches ic (words terms) s s' ->
  exists term, In term terms /\ matches ic (Chars (js term)) s s'.
Proof.
  unfold words. induction terms as [|x l IH]; intros Hm.
  - simpl in Hm. inversion Hm; subst. simpl in *. discriminate.
  - destruct l as [|y l].
    + exists x. split; [left; reflexivity | exact Hm].
    + change (matches ic (Alt (Chars (js x)) (alts (List.map (fun w => Chars (js w)) (y :: l)))) s s') in Hm.
      inversion Hm; subst.
      * exists x. split; [left; reflexivity | assumption].
      * destruct IH as (t & Hin & Ht); auto. exists t. split; [right|]; auto.
Qed.

(** A test against an alternation of literals is a substring test. *)
Lemma test_words ic terms line :
  test (RegExp (words terms) ic) line = true <->
  exists term, In term terms /\ contains ic (js term) line.
Proof.
  unfold test, exec. cbn [pattern ignoreCase]. split.
  - destruct (search _ _ _ _ _) as [x|] eqn:Hs; [intros _|discriminate].
    destruct (search_sound _ _ _ _ _ Hs) as (a & b & s' & -> & Hm & _).
    destruct (words_elim _ Hm) as (term & Hin & Ht).
    inversion Ht as [l s0 s0' He| | | | | | | | |]; subst.
    destruct (eat_sound _ _ _ He) as (w & Hw & Hafter & _). simpl in Hafter.
    exists term. split; auto. exists a, w, (after s'). subst b. auto.
  - intros (term & Hin & pre & w & post & -> & Hw).
    destruct (search _ _ _ _ _) eqn:Hs; [reflexivity|]. exfalso.
    revert Hs. apply search_complete with
      (s' := MState (rev w ++ rev pre ++ []) post (repeat None (S (ngroups (words terms))))).
    apply words_intro with (term := term); auto.
    constructor. apply eat_complete. exact Hw.
Qed.

Lemma contains_case term line : contains false term line -> contains true term line.
Proof.
  intros (pre & w & post & -> & Hw). exists pre, w, post. split; auto.
  eapply Forall2_impl; [|exact Hw]. unfold char_eq. simpl.
  intros a c H. apply N.eqb_eq in H. subst. apply N.eqb_refl.
Qed.

(** ** The merchant loop *)

Lemma kept_char c : negb (class_mem false not_merchant_char c) = merchant_char c.
Proof.
  unfold class_mem, not_merchant_char, merchant_char, item_mem, char_eq, canon.
  cbn [negated items existsb xorb].
  rewrite !(N.eqb_sym c).
  destruct (isWord c), (isSpace c), (N.eqb (ch "-") c), (N.eqb (ch "&") c),
    (N.eqb (ch ".") c), (N.eqb (ch ",") c); reflexivity.
Qed.

Lemma firstn_incl (A : Type) n (l : list A) x : In x (firstn n l) -> In x l.
Proof.
  intros H. rewrite <- (firstn_skipn n l). apply in_or_app. left. exact H.
Qed.

Lemma sanitize_chars s : Forall (fun c => merchant_char c = true) (sanitize s).
Proof.
  unfold sanitize, slice0, delete_all. apply Forall_forall. intros c Hin.
  apply firstn_incl in Hin.
  apply filter_In in Hin. destruct Hin as [_ Hc]. rewrite <- kept_char. exact Hc.
Qed.

Lemma sanitize_length s : length (sanitize s) <= 60.
Proof. unfold sanitize, slice0. apply firstn_le_length. Qed.

Lemma alpha_char s :
  test re_alpha s = true -> exists c, In c s /\ isWord c = true.
Proof.
  unfold test, exec. cbn [pattern ignoreCase re_alpha].
  destruct (search _ _ _ _ _) as [x|] eqn:Hs; [intros _|discriminate].
  destruct (search_sound _ _ _ _ _ Hs) as (a & b & s' & -> & Hm & _).
  inversion Hm as [|cs c p t cp Hc| | | | | | | |]; subst.
  exists c. split; [apply in_or_app; right; left; reflexivity|].
  revert Hc. unfold class_mem, item_mem, isWord, ch. cbn [negated items existsb xorb].
  change (N_of_ascii "A") with 65%N. change (N_of_ascii "Z") with 90%N.
  change (N_of_ascii "a") with 97%N. change (N_of_ascii "z") with 122%N.
  cbn [andb]. rewrite orb_false_r.
  destruct (between 65 90 c), (between 97 122 c); simpl; auto; discriminate.
Qed.

Lemma sanitize_nonempty s : test re_alpha s = true -> 1 <= length (sanitize s).
Proof.
  intros H. destruct (alpha_char s H) as (c & Hin & Hw).
  assert (Hf : In c (delete_all not_merchant_char s)).
  { apply filter_In. split; auto. rewrite kept_char. unfold merchant_char.
    rewrite Hw. reflexivity. }
  unfold sanitize, slice0. destruct (delete_all not_merchant_char s); [destruct Hf|].
  simpl. lia.
Qed.

Lemma merchant_loop_cases ls d :
  merchant_loop ls d = d /\ Forall (fun s => merchant_line s = false) ls
  \/ exists s, In s ls /\ merchant_line s = true /\ merchant_loop ls d = sanitize s.
Proof.
  induction ls as [|s t IH]; simpl.
  - left. auto.
  - destruct (merchant_line s) eqn:Hs.
    + right. exists s. auto.
    + destruct IH as [[-> Hall]|(x & Hin & Hx & ->)].
      * left. auto.
      * right. exists x. auto.
Qed.

Lemma find_merchant_ok lines :
  1 <= length (find_merchant lines) <= 60 /\
  Forall (fun c => merchant_char c = true) (find_merchant lines).
Proof.
  unfold find_merchant.
  destruct (merchant_loop_cases (firstn (Nat.min 6 (length lines)) lines) (js "-"))
    as [[-> _]|(s & _ & Hs & ->)].
  - split; [simpl; lia|]. repeat constructor.
  - unfold merchant_line in Hs. apply andb_prop in Hs. destruct Hs as [Hs _].
    apply andb_prop in Hs. destruct Hs as [_ Ha].
    split; [split|].
    + apply sanitize_nonempty. exact Ha.
    + apply sanitize_length.
    + apply sanitize_chars.
Qed.

(** ** The whole parser *)

Lemma parseReceipt_ok text :
  exists st,
    scan_lines (lines_of text) scan0 = Ok st /\ scan_ok st /\
    parseReceipt text =
      Ok (Receipt (find_merchant (lines_of text)) (or_SGD (s_currency st))
            (or_zero (s_amount st)) (Debug (s_matched st))).
Proof.
  destruct (scan_lines_ok (lines_of text) scan0_ok) as (st & Hs & Hok).
  exists st. repeat split; try apply Hok; auto.
  unfold parseReceipt. rewrite Hs. reflexivity.
Qed.

Lemma test_cny line : test re_cny line = true <-> contains true (js "CNY") line.
Proof.
  change re_cny with (RegExp (words ["CNY"%string]) true). rewrite test_words.
  split; [intros (t & [<-|[]] & H); exact H | intros H; exists "CNY"%string; simpl; auto].
Qed.

Lemma test_sgd line :
  test re_sgd line = true <->
  contains true (js "SGD") line \/ contains true (js "S$") line.
Proof.
  unfold re_sgd. rewrite test_words. split.
  - intros (t & [<-|[<-|[]]] & H); auto.
  - intros [H|H]; [exists "SGD"%string | exists "S$"%string]; simpl; auto.
Qed.

Lemma test_dollar line : test re_dollar line = true <-> contains false (js "$") line.
Proof.
  change re_dollar with (RegExp (words ["$"%string]) false). rewrite test_words.
  split; [intros (t & [<-|[]] & H); exact H | intros H; exists "$"%string; simpl; auto].
Qed.

Lemma match_hit text pre line post :
  lines_of text = pre ++ line :: post ->
  Forall no_match pre ->
  (exists re, In re candidates /\ str_match line re <> None) ->
  exists val,
    token_shape val /\
    parseReceipt text =
      Ok (Receipt (find_merchant (lines_of text))
            (or_SGD (infer_currency line None))
            (parseFloat (replace_str (js ",") [] val)) (Debug line)).
Proof.
  intros Hl Hpre (re & Hin & Hre).
  destruct (first_pattern line) as [Hno|(k & re' & m & Hk & Hb & Hm)].
  - exfalso. apply Hre. apply Hno. exact Hin.
  - destruct (@scan_lines_first pre line post k re' m Hpre Hk Hb Hm)
      as (val & _ & Ht & Hs).
    exists val. split; auto. unfold parseReceipt. rewrite Hl, Hs. reflexivity.
Qed.

(** * The properties of the specification *)

Ltac each_candidate H :=
  simpl in H;
  repeat (destruct H as [H|H]; [subst; vm_compute; reflexivity|]);
  destruct H.

Ltac no_matches :=
  repeat (constructor; [let re := fresh "re" in let H := fresh "H" in
                        intros re H; each_candidate H|]);
  try constructor.

(** C1: a token written with a comma, as in the line [TOTAL: 12,50], is to
    be read with the comma as the decimal separator, giving 12.50.  The
    parser deletes the comma before [parseFloat] and returns 1250; the same
    token with a period is read as 12.5. *)
Theorem comma_token_amount :
  parseReceipt (js "TOTAL: 12,50")
  = Ok (Receipt (js "-") (js "SGD") (Num 1250) (Debug (js "TOTAL: 12,50")))
  /\ parseReceipt (js "TOTAL: 12.50")
     = Ok (Receipt (js "-") (js "SGD") (Num (25 # 2)) (Debug (js "TOTAL: 12.50"))).
Proof. split; vm_compute; reflexivity. Qed.

(** C2, as stated: on the three lines [STORE NAME], [DATE: 01/01/2024],
    [TOTAL: 12.00] the merchant would be [STORE NAME] and the amount 12.00.
    No record returned for that text has this merchant. *)
Lemma store_name_not_merchant :
  ~ (exists r, parseReceipt store_text = Ok r /\
               merchant r = js "STORE NAME" /\ amount r = Num 12).
Proof.
  intros (r & Hr & Hm & _). vm_compute in Hr. injection Hr as <-.
  vm_compute in Hm. discriminate.
Qed.

(** C2, amended: on that text the three lines are split as written, each of
    them matches the deny-list ([STORE NAME] holds the term [store]), so the
    merchant is the default [-]; the amount is 12.00, read from the last
    line. *)
Theorem store_name_receipt :
  lines_of store_text = [js "STORE NAME"; js "DATE: 01/01/2024"; js "TOTAL: 12.00"]
  /\ Forall (fun s => test ban s = true) (lines_of store_text)
  /\ parseReceipt store_text
     = Ok (Receipt (js "-") (js "SGD") (Num 12) (Debug (js "TOTAL: 12.00"))).
Proof.
  split; [vm_compute; reflexivity|]. split; [|vm_compute; reflexivity].
  repeat constructor.
Qed.

(** C3: a line that holds a bare [$] followed by a token, such as the line
    [$5.00], is to be matched by the last pattern and give the amount 5.00.
    The pattern starts with a word boundary, which a [$] at the start of the
    line (or after a space) does not have: no pattern matches and the amount
    is the default 0.  With a word character in front, as in [S$5.00], the
    pattern matches. *)
Theorem dollar_at_line_start :
  List.map (str_match (js "$5.00")) candidates = [None; None; None; None]
  /\ parseReceipt (js "$5.00") = Ok default_receipt
  /\ List.map (str_match (js "PRICE $5.00")) candidates = [None; None; None; None]
  /\ parseReceipt (js "S$5.00")
     = Ok (Receipt (js "S5.00") (js "SGD") (Num 5) (Debug (js "S$5.00"))).
Proof. repeat split; vm_compute; reflexivity. Qed.

(** C4: the lines are scanned top to bottom and, on each line, the four
    patterns are tried in their order.  When no pattern matches the lines
    [pre], and [re] is the first pattern to match the line that follows, with
    match array [m], then the last group of [m] is defined and amount,
    currency and matched line come from that line and that group alone,
    whatever lines follow. *)
Theorem first_match_decides pre line post k re m :
  Forall no_match pre ->
  nth_error candidates k = Some re ->
  (forall j re', j < k -> nth_error candidates j = Some re' ->
                 str_match line re' = None) ->
  str_match line re = Some m ->
  exists val,
    last_group m = Some val /\
    (forall later,
        scan_lines (pre ++ line :: later) scan0
        = Ok (Scan (Some (parseFloat (replace_str (js ",") [] val)))
                (infer_currency line None) line)) /\
    (forall text,
        lines_of text = pre ++ line :: post ->
        exists r,
          parseReceipt text = Ok r /\
          amount r = parseFloat (replace_str (js ",") [] val) /\
          currency r = or_SGD (infer_currency line None) /\
          matched (debug r) = line).
Proof.
  intros Hpre Hk Hb Hm.
  destruct (@scan_lines_first pre line post k re m Hpre Hk Hb Hm) as (val & Hv & _ & _).
  exists val. split; [exact Hv|]. split.
  - intros later.
    destruct (@scan_lines_first pre line later k re m Hpre Hk Hb Hm) as (val' & Hv' & _ & Hs).
    rewrite Hv in Hv'. injection Hv' as <-. exact Hs.
  - intros text Hl.
    destruct (@scan_lines_first pre line post k re m Hpre Hk Hb Hm) as (val' & Hv' & _ & Hs).
    rewrite Hv in Hv'. injection Hv' as <-.
    eexists. split; [unfold parseReceipt; rewrite Hl, Hs; reflexivity|].
    simpl. auto.
Qed.

Lemma first_match_decides_witness :
  exists val,
    last_group [Some (js "AMT: 3.00"); Some (js "AMT"); Some (js "3.00")] = Some val /\
    (forall later,
        scan_lines ([js "Joe"] ++ js "AMT: 3.00" :: later) scan0
        = Ok (Scan (Some (parseFloat (replace_str (js ",") [] val)))
                (infer_currency (js "AMT: 3.00") None) (js "AMT: 3.00"))) /\
    (forall text,
        lines_of text = [js "Joe"] ++ js "AMT: 3.00" :: [js "TOTAL: 9.00"] ->
        exists r,
          parseReceipt text = Ok r /\
          amount r = parseFloat (replace_str (js ",") [] val) /\
          currency r = or_SGD (infer_currency (js "AMT: 3.00") None) /\
          matched (debug r) = js "AMT: 3.00").
Proof.
  apply first_match_decides with (k := 1) (re := nth 1 candidates re_dollar).
  - no_matches.
  - reflexivity.
  - intros j re' Hj Hn. destruct j as [|j]; [|lia].
    injection Hn as <-. vm_compute. reflexivity.
  - vm_compute. reflexivity.
Defined.

(** C5: on the line that gave the amount, the currency is [CNY] when the
    line contains [CNY]; otherwise [SGD] when it contains [SGD] or [S$];
    otherwise [SGD] when it contains [$]; otherwise it stays unset and the
    default [SGD] of the record applies.  [CNY], [SGD] and [S$] are looked for
    with the [i] flag.  The line [AMOUNT DUE: $9.99] gives 9.99 and [SGD]. *)
Theorem currency_of_matched_line :
  (forall text pre line post,
      lines_of text = pre ++ line :: post ->
      Forall no_match pre ->
      (exists re, In re candidates /\ str_match line re <> None) ->
      exists r,
        parseReceipt text = Ok r /\ matched (debug r) = line /\
        currency r = or_SGD (infer_currency line None) /\
        (contains true (js "CNY") line ->
         infer_currency line None = Some (js "CNY") /\ currency r = js "CNY") /\
        (contains false (js "CNY") line -> currency r = js "CNY") /\
        (~ contains true (js "CNY") line ->
         contains true (js "SGD") line \/ contains true (js "S$") line ->
         infer_currency line None = Some (js "SGD") /\ currency r = js "SGD") /\
        (~ contains true (js "CNY") line ->
         ~ (contains true (js "SGD") line \/ contains true (js "S$") line) ->
         contains false (js "$") line ->
         infer_currency line None = Some (js "SGD") /\ currency r = js "SGD") /\
        (~ contains true (js "CNY") line ->
         ~ (contains true (js "SGD") line \/ contains true (js "S$") line) ->
         ~ contains false (js "$") line ->
         infer_currency line None = None /\ currency r = js "SGD"))
  /\ parseReceipt (js "AMOUNT DUE: $9.99")
     = Ok (Receipt (js "AMOUNT DUE 9.99") (js "SGD") (Num (999 # 100))
             (Debug (js "AMOUNT DUE: $9.99"))).
Proof.
  split; [|vm_compute; reflexivity].
  intros text pre line post Hl Hpre Hre.
  destruct (@match_hit text pre line post Hl Hpre Hre) as (val & _ & Hr).
  eexists. split; [exact Hr|]. cbn [matched debug currency].
  split; [reflexivity|]. split; [reflexivity|].
  unfold infer_currency.
  pose proof (test_cny line) as Hc. pose proof (test_sgd line) as Hs.
  pose proof (test_dollar line) as Hd.
  pose proof (@contains_case (js "CNY") line) as Hl'.
  destruct (test re_cny line), (test re_sgd line), (test re_dollar line);
    repeat split; intros; auto;
    try (exfalso; tauto);
    try (exfalso;
         match goal with
         | H : contains true (js "CNY") line |- _ => apply Hc in H; discriminate
         | H : contains false (js "CNY") line |- _ =>
             apply Hl' in H; apply Hc in H; discriminate
         | H : contains true (js "SGD") line \/ _ |- _ => apply Hs in H; discriminate
         | H : contains false (js "$") line |- _ => apply Hd in H; discriminate
         end).
Qed.

Lemma currency_of_matched_line_witness :
  exists r,
    parseReceipt due_text = Ok r /\ matched (debug r) = js "AMOUNT DUE: $9.99" /\
    currency r = js "SGD".
Proof.
  destruct (proj1 currency_of_matched_line due_text [js "Cafe Uno"]
              (js "AMOUNT DUE: $9.99") [])
    as (r & Hr & Hm & _ & _ & _ & _ & Hd & _).
  - vm_compute. reflexivity.
  - no_matches.
  - exists (nth 1 candidates re_dollar). split.
    + right. left. reflexivity.
    + vm_compute. discriminate.
  - exists r. split; [exact Hr|]. split; [exact Hm|]. apply Hd.
    + intros H. apply test_cny in H. vm_compute in H. discriminate.
    + intros H. apply test_sgd in H. vm_compute in H. discriminate.
    + exists (js "AMOUNT DUE: "), (js "$"), (js "9.99").
      split; [reflexivity|]. repeat constructor.
Defined.

(** C6: the parser never throws; on the empty string, and on every text in
    which no line of the merchant window qualifies and no pattern matches any
    line, it returns merchant [-], currency [SGD] and amount 0. *)
Theorem no_signal_defaults :
  (forall text, exists r, parseReceipt text = Ok r) /\
  parseReceipt (js "") = Ok default_receipt /\
  (forall text,
      Forall (fun s => merchant_line s = false)
             (firstn (Nat.min 6 (length (lines_of text))) (lines_of text)) ->
      Forall no_match (lines_of text) ->
      parseReceipt text = Ok default_receipt).
Proof.
  split; [|split].
  - intros text. destruct (parseReceipt_ok text) as (st & _ & _ & H). eauto.
  - vm_compute. reflexivity.
  - intros text Hm Hn. unfold parseReceipt.
    rewrite (scan_lines_none Hn). cbn [bind scan0 s_currency s_amount s_matched or_SGD or_zero].
    unfold find_merchant.
    destruct (merchant_loop_cases
                (firstn (Nat.min 6 (length (lines_of text))) (lines_of text)) (js "-"))
      as [[-> _]|(s & Hin & Hs & _)]; [reflexivity|].
    rewrite Forall_forall in Hm. rewrite (Hm s Hin) in Hs. discriminate.
Qed.

Lemma no_signal_defaults_witness : parseReceipt noise_text = Ok default_receipt.
Proof.
  apply (proj2 (proj2 no_signal_defaults)).
  - vm_compute. repeat constructor.
  - let l := eval vm_compute in (lines_of noise_text) in
    change (lines_of noise_text) with l.
    no_matches.
Defined.

(** C7: for every text the parser returns a record whose amount is not
    negative, whose currency has three characters and whose merchant has
    between 1 and 60 characters. *)
Theorem receipt_ranges text :
  exists r,
    parseReceipt text = Ok r /\ nonneg (amount r) /\
    length (currency r) = 3 /\ 1 <= length (merchant r) <= 60.
Proof.
  destruct (parseReceipt_ok text) as (st & _ & [Ha Hc] & H).
  eexists. split; [exact H|]. cbn [amount currency merchant].
  split; [|split].
  - destruct (s_amount st); simpl; [exact Ha|]. unfold Qle. simpl. lia.
  - destruct Hc as [-> | [-> | ->]]; reflexivity.
  - apply find_merchant_ok.
Qed.

(** C8: for every text, each character of the returned merchant is a word
    character, white space, a hyphen, an ampersand, a period or a comma. *)
Theorem merchant_characters text :
  exists r,
    parseReceipt text = Ok r /\
    Forall (fun c => merchant_char c = true) (merchant r).
Proof.
  destruct (parseReceipt_ok text) as (st & _ & _ & H).
  eexists. split; [exact H|]. apply find_merchant_ok.
Qed.



(** C10: the deny-list test is a substring test that ignores letter case:
    a line that contains a deny term anywhere, also inside a longer word, is
    no merchant candidate and the merchant loop passes over it.  So it is for
    [Midtown Cafe], [Wholesale Mart] and [Hosteria], which hold letters and
    have three characters or more. *)
Theorem deny_term_inside_word :
  (forall term line,
      In term ban_terms -> contains true (js term) line ->
      test ban line = true /\ merchant_line line = false /\
      forall rest dflt, merchant_loop (line :: rest) dflt = merchant_loop rest dflt)
  /\ Forall (fun s => test re_alpha s = true /\ 3 <= length s /\
                      test ban s = true /\ merchant_line s = false /\
                      parseReceipt s = Ok default_receipt)
            [js "Midtown Cafe"; js "Wholesale Mart"; js "Hosteria"].
Proof.
  split.
  - intros term line Hin Hc.
    assert (Hb : test ban line = true).
    { unfold ban. apply test_words. exists term. auto. }
    assert (Hm : merchant_line line = false).
    { unfold merchant_line. rewrite Hb. reflexivity. }
    repeat split; auto. intros rest dflt. simpl. rewrite Hm. reflexivity.
  - repeat constructor; vm_compute; try reflexivity; intros; discriminate.
Qed.

Lemma deny_term_inside_word_witness :
  test ban (js "Midtown Cafe") = true /\ merchant_line (js "Midtown Cafe") = false /\
  forall rest dflt,
    merchant_loop (js "Midtown Cafe" :: rest) dflt = merchant_loop rest dflt.
Proof.
  apply (proj1 deny_term_inside_word "mid"%string).
  - vm_compute. tauto.
  - exists [], (js "Mid"), (js "town Cafe"). split; [reflexivity|].
    repeat constructor.
Defined.

(** * Further properties *)

(** ** Line normalization *)

Lemma match_here_newline prev rest :
  match_here re_newline prev rest = newline_at rest.
Proof.
  unfold match_here, re_newline, newline_at.
  cbn [pattern ignoreCase ngroups run eat after before caps Nat.add repeat].
  unfold char_eq, canon, LF, CR.
  destruct rest as [|c t]; cbn [after before caps orelse]; [reflexivity|].
  rewrite (N.eqb_sym 13 c), (N.eqb_sym 10 c).
  destruct (N.eqb_spec c 13) as [->|H13].
  - change (N.eqb 13 10) with false. cbn iota.
    cbn [after before caps orelse eat]. unfold char_eq, canon.
    destruct t as [|c' t']; cbn [orelse length].
    + reflexivity.
    + rewrite (N.eqb_sym 10 c'). destruct (N.eqb c' 10); cbn [orelse length before].
      * f_equal. lia.
      * reflexivity.
  - cbn [orelse]. destruct (N.eqb c 10); cbn [length before]; [f_equal; lia | reflexivity].
Qed.

Lemma split_at_no_LF rest :
  forall prev cur skip,
    ~ In LF cur ->
    Forall (fun l => ~ In LF l) (split_at re_newline prev cur skip rest).
Proof.
  induction rest as [|c t IH]; intros prev cur skip Hcur; cbn [split_at].
  - constructor; [|constructor]. rewrite <- in_rev. exact Hcur.
  - destruct skip as [|n]; [|apply IH; exact Hcur].
    rewrite match_here_newline. unfold newline_at.
    assert (Hpiece : ~ In LF (rev cur)) by (rewrite <- in_rev; exact Hcur).
    assert (Hnil : ~ In LF (@nil N)) by (intros []).
    destruct (N.eqb_spec c LF) as [->|Hc].
    + constructor; [exact Hpiece | apply IH; exact Hnil].
    + assert (Hnext : ~ In LF (c :: cur)).
      { intros [H|H]; [congruence | exact (Hcur H)]. }
      destruct (N.eqb c CR); [|apply IH; exact Hnext].
      destruct t as [|c' t']; [apply IH; exact Hnext|].
      destruct (N.eqb c' LF); [|apply IH; exact Hnext].
      constructor; [exact Hpiece | apply IH; exact Hnil].
Qed.

Lemma split_no_LF text : Forall (fun l => ~ In LF l) (split re_newline text).
Proof.
  unfold split. destruct text as [|c t].
  - rewrite match_here_newline. simpl. repeat constructor. intros [].
  - apply split_at_no_LF. intros [].
Qed.

Lemma dropwhile_incl p s x : In x (dropwhile p s) -> In x s.
Proof.
  induction s as [|c t IH]; simpl; [auto|].
  destruct (p c); [right; auto | auto].
Qed.

Lemma trim_incl s x : In x (trim s) -> In x s.
Proof.
  unfold trim. intros H. apply in_rev in H. apply dropwhile_incl in H.
  apply in_rev in H. apply dropwhile_incl in H. exact H.
Qed.

Lemma dropwhile_head p s :
  match dropwhile p s with c :: _ => p c = false | [] => True end.
Proof.
  induction s as [|c t IH]; simpl; [exact I|].
  destruct (p c) eqn:Hc; [exact IH | exact Hc].
Qed.

Lemma dropwhile_snoc p l x :
  p x = false -> dropwhile p (l ++ [x]) = dropwhile p l ++ [x].
Proof.
  intros Hx. induction l as [|c t IH]; simpl.
  - rewrite Hx. reflexivity.
  - destruct (p c); [exact IH | reflexivity].
Qed.

Lemma trim_trimmed s : trimmed (trim s).
Proof.
  unfold trim, trimmed. rewrite rev_involutive. split; [|apply dropwhile_head].
  pose proof (dropwhile_head isSpace s) as Hh.
  destruct (dropwhile isSpace s) as [|h u]; [exact I|].
  simpl rev. rewrite dropwhile_snoc by exact Hh.
  rewrite rev_app_distr. simpl. exact Hh.
Qed.

Lemma trim_id s : trimmed s -> trim s = s.
Proof.
  unfold trim, trimmed. intros [Hh Hl].
  assert (E1 : dropwhile isSpace s = s).
  { destruct s as [|c t]; [reflexivity|]. simpl. rewrite Hh. reflexivity. }
  rewrite E1.
  assert (E2 : dropwhile isSpace (rev s) = rev s).
  { destruct (rev s) as [|c t]; [reflexivity|]. simpl. rewrite Hl. reflexivity. }
  rewrite E2. apply rev_involutive.
Qed.

Lemma lines_of_normal text : Forall normal_line (lines_of text).
Proof.
  unfold lines_of. apply Forall_forall. intros l Hin.
  apply filter_In in Hin. destruct Hin as [Hin Hne].
  apply in_map_iff in Hin. destruct Hin as (piece & <- & Hp).
  pose proof (split_no_LF text) as Hs. rewrite Forall_forall in Hs.
  split; [|split].
  - destruct (trim piece); [discriminate | discriminate].
  - apply trim_trimmed.
  - intros H. apply trim_incl in H. exact (Hs piece Hp H).
Qed.

Lemma newline_at_inside c t :
  c <> LF -> (c = CR -> match t with c' :: _ => c' <> LF | [] => True end) ->
  newline_at (c :: t) = None.
Proof.
  intros Hc Ht. unfold newline_at.
  destruct (N.eqb_spec c LF); [contradiction|].
  destruct (N.eqb_spec c CR) as [E|_]; [|reflexivity].
  specialize (Ht E). destruct t as [|c' t']; [reflexivity|].
  destruct (N.eqb_spec c' LF); [contradiction | reflexivity].
Qed.

(** A piece without line feed is read whole; [next] is what follows it. *)
Lemma split_at_piece p :
  forall prev cur next,
    ~ In LF p ->
    (last p 0%N = CR -> match next with c :: _ => c <> LF | [] => True end) ->
    split_at re_newline prev cur 0 (p ++ next)
    = match next with
      | [] => [rev cur ++ p]
      | _ => split_at re_newline (rev p ++ prev) (rev p ++ cur) 0 next
      end.
Proof.
  induction p as [|c t IH]; intros prev cur next Hp Hlast.
  - simpl. destruct next; [rewrite app_nil_r|]; reflexivity.
  - assert (Hc : c <> LF) by (intros ->; apply Hp; left; reflexivity).
    assert (Ht : ~ In LF t) by (intros H; apply Hp; right; exact H).
    cbn [app split_at]. rewrite match_here_newline, newline_at_inside; auto.
    + rewrite (IH (c :: prev) (c :: cur) next Ht).
      * simpl. rewrite <- !app_assoc. simpl. destruct next; reflexivity.
      * intros E. apply Hlast. destruct t; [discriminate | exact E].
    + intros E. destruct t as [|c' t'].
      * simpl. apply Hlast. simpl. exact E.
      * simpl. intros ->. apply Ht. left. reflexivity.
Qed.

Lemma normal_line_last s : normal_line s -> last s 0%N <> CR.
Proof.
  intros (Hne & [_ Hl] & _) E.
  rewrite (app_removelast_last 0%N Hne), rev_app_distr in Hl. simpl in Hl.
  rewrite E in Hl. discriminate.
Qed.

Lemma split_at_join sep ls :
  sep = [LF] \/ sep = [CR; LF] ->
  Forall normal_line ls -> ls <> [] ->
  forall prev, split_at re_newline prev [] 0 (join sep ls) = ls.
Proof.
  intros Hsep Hall. induction Hall as [|l t Hl Ht IH]; intros Hne prev; [congruence|].
  destruct Hl as (Hlne & Htrim & Hlf).
  assert (Hlast : last l 0%N <> CR)
    by (apply normal_line_last; exact (conj Hlne (conj Htrim Hlf))).
  destruct t as [|l' t'].
  - simpl join. rewrite <- (app_nil_r l) at 1.
    rewrite (@split_at_piece l prev [] [] Hlf); [|intros; exact I].
    reflexivity.
  - change (join sep (l :: l' :: t')) with (l ++ sep ++ join sep (l' :: t')).
    assert (Hrest : forall q, split_at re_newline q [] 0 (join sep (l' :: t')) = l' :: t').
    { apply IH. discriminate. }
    destruct Hsep as [-> | ->].
    + rewrite (@split_at_piece l prev [] _ Hlf); [|intros E; contradiction].
      cbn [app split_at]. rewrite match_here_newline. cbn [newline_at].
      rewrite N.eqb_refl. rewrite app_nil_r, rev_involutive.
      f_equal. apply Hrest.
    + rewrite (@split_at_piece l prev [] _ Hlf); [|intros E; contradiction].
      cbn [app split_at]. rewrite match_here_newline. cbn [newline_at].
      change (N.eqb CR LF) with false. cbn iota. rewrite !N.eqb_refl.
      rewrite app_nil_r, rev_involutive. f_equal. apply Hrest.
Qed.

Lemma join_nonempty sep l t : l <> [] -> join sep (l :: t) <> [].
Proof. intros H. destruct t; simpl; [exact H|]. destruct l; [congruence | discriminate]. Qed.

Lemma lines_of_join_normal sep ls :
  sep = [LF] \/ sep = [CR; LF] ->
  Forall normal_line ls ->
  lines_of (join sep ls) = ls.
Proof.
  intros Hsep Hall. destruct ls as [|l t]; [reflexivity|].
  unfold lines_of, split.
  assert (Hl : l <> []) by (inversion Hall as [|? ? [H _] _]; exact H).
  pose proof (@join_nonempty sep l t Hl) as Hj.
  destruct (join sep (l :: t)) as [|c u] eqn:E;
    [exfalso; first [apply Hj; reflexivity | apply Hj; exact E]|].
  rewrite <- E, split_at_join by (auto; discriminate).
  clear E Hj Hl. induction Hall as [|x xs (Hx & Htr & _) _ IH]; [reflexivity|].
  simpl. rewrite (trim_id Htr). destruct x; [congruence|]. simpl. f_equal. exact IH.
Qed.

(** X1: Every line the parser works on is not empty, has no white space at
    either end and holds no line feed. *)
Theorem lines_normal text : Forall normal_line (lines_of text).
Proof. exact (lines_of_normal text). Qed.

(** X2: Round trip: normal lines written one per line, with [\n] or [\r\n]
    between them, are read back as they are. *)
Theorem lines_of_join sep ls :
  sep = [LF] \/ sep = [CR; LF] ->
  Forall normal_line ls ->
  lines_of (join sep ls) = ls.
Proof. exact (@lines_of_join_normal sep ls). Qed.

Lemma lines_of_join_witness :
  lines_of (join [CR; LF] [js "Kopi House"; js "TOTAL: 4.20"])
  = [js "Kopi House"; js "TOTAL: 4.20"].
Proof.
  apply lines_of_join.
  - right. reflexivity.
  - repeat constructor; try discriminate; vm_compute; intuition discriminate.
Defined.

(** X3: The record depends on the lines only: writing the lines of a text back,
    one per line, gives a text with the same record. *)
Theorem parseReceipt_normalized text :
  parseReceipt (join [LF] (lines_of text)) = parseReceipt text.
Proof.
  unfold parseReceipt.
  rewrite (@lines_of_join_normal [LF] (lines_of text)); [reflexivity | left; reflexivity|].
  apply lines_of_normal.
Qed.

(** ** Merchant detection *)

Lemma alpha_mem c :
  class_mem false (CClass false [CRange (ch "A") (ch "Z"); CRange (ch "a") (ch "z")]) c
  = isLetter c.
Proof.
  unfold class_mem, item_mem, isLetter, ch. cbn [negated items existsb xorb andb].
  change (N_of_ascii "A") with 65%N. change (N_of_ascii "Z") with 90%N.
  change (N_of_ascii "a") with 97%N. change (N_of_ascii "z") with 122%N.
  rewrite !orb_false_r. reflexivity.
Qed.

Lemma test_alpha s :
  test re_alpha s = true <-> exists c, In c s /\ isLetter c = true.
Proof.
  unfold test, exec. cbn [pattern ignoreCase re_alpha]. split.
  - destruct (search _ _ _ _ _) as [x|] eqn:Hs; [intros _|discriminate].
    destruct (search_sound _ _ _ _ _ Hs) as (a & b & s' & -> & Hm & _).
    inversion Hm as [|cs c p t cp Hc| | | | | | | |]; subst.
    exists c. split; [apply in_or_app; right; left; reflexivity|].
    rewrite <- alpha_mem. exact Hc.
  - intros (c & Hin & Hc). apply in_split in Hin. destruct Hin as (a & b & ->).
    destruct (search _ _ _ _ _) eqn:Hs; [reflexivity|]. exfalso. revert Hs.
    eapply search_complete. constructor. rewrite alpha_mem. exact Hc.
Qed.

(** X4: A line is a merchant candidate exactly when it contains no term of the
    deny-list (in any letter case), holds an ASCII letter and has three
    code units or more. *)
Theorem merchant_line_iff s :
  merchant_line s = true <->
  (forall term, In term ban_terms -> ~ contains true (js term) s) /\
  (exists c, In c s /\ isLetter c = true) /\
  3 <= length s.
Proof.
  unfold merchant_line. rewrite !andb_true_iff, negb_true_iff, Nat.leb_le, test_alpha.
  assert (Hban : test ban s = false <->
                 forall term, In term ban_terms -> ~ contains true (js term) s).
  { unfold ban. split.
    - intros Hf term Hin Hc.
      assert (Ht : test (RegExp (words ban_terms) true) s = true)
        by (apply test_words; exists term; auto).
      congruence.
    - intros Hn. destruct (test _ s) eqn:Ht; [|reflexivity].
      apply test_words in Ht. destruct Ht as (term & Hin & Hc).
      destruct (Hn term Hin Hc). }
  rewrite Hban. tauto.
Qed.

Lemma sanitize_clean s :
  Forall (fun c => merchant_char c = true) s -> length s <= 60 -> sanitize s = s.
Proof.
  intros Hall Hlen. unfold sanitize, slice0, delete_all.
  assert (E : filter (fun c => negb (class_mem false not_merchant_char c)) s = s).
  { induction Hall as [|c t Hc _ IH]; [reflexivity|].
    simpl. rewrite kept_char, Hc. f_equal. apply IH. simpl in Hlen. lia. }
  rewrite E. apply firstn_all2. exact Hlen.
Qed.

Lemma merchant_loop_first pre s post dflt :
  Forall (fun l => merchant_line l = false) pre -> merchant_line s = true ->
  merchant_loop (pre ++ s :: post) dflt = sanitize s.
Proof.
  induction 1 as [|l pre Hl _ IH]; intros Hs; simpl.
  - rewrite Hs. reflexivity.
  - rewrite Hl. apply IH. exact Hs.
Qed.

Lemma window_firstn (A : Type) (l : list A) :
  firstn (Nat.min 6 (length l)) l = firstn 6 l.
Proof.
  destruct (Nat.le_ge_cases 6 (length l)) as [H|H].
  - rewrite Nat.min_l by exact H. reflexivity.
  - rewrite Nat.min_r by exact H. rewrite firstn_all, firstn_all2 by exact H.
    reflexivity.
Qed.

(** X5: The first candidate among the first six lines is the merchant, cut to
    its allowed characters and to 60 of them; a candidate that holds allowed
    characters only, and 60 at most, is returned as it is. *)
Theorem merchant_is_first_candidate text pre s post :
  lines_of text = pre ++ s :: post ->
  length pre < 6 ->
  Forall (fun l => merchant_line l = false) pre ->
  merchant_line s = true ->
  exists r,
    parseReceipt text = Ok r /\ merchant r = sanitize s /\
    (Forall (fun c => merchant_char c = true) s -> length s <= 60 -> merchant r = s).
Proof.
  intros Hl Hlen Hpre Hs.
  destruct (parseReceipt_ok text) as (st & _ & _ & H).
  eexists. split; [exact H|]. cbn [merchant].
  assert (E : find_merchant (lines_of text) = sanitize s).
  { unfold find_merchant. rewrite window_firstn, Hl.
    rewrite firstn_app. replace (6 - length pre) with (S (5 - length pre)) by lia.
    rewrite firstn_all2 by lia. cbn [firstn].
    apply merchant_loop_first; assumption. }
  split; [exact E|]. intros Hc Hn. rewrite E. apply sanitize_clean; assumption.
Qed.

Lemma merchant_is_first_candidate_witness :
  exists r,
    parseReceipt (js "RECEIPT #12" ++ [LF] ++ js "Kopi & Toast, Bugis") = Ok r /\
    merchant r = sanitize (js "Kopi & Toast, Bugis") /\
    (Forall (fun c => merchant_char c = true) (js "Kopi & Toast, Bugis") ->
     length (js "Kopi & Toast, Bugis") <= 60 ->
     merchant r = js "Kopi & Toast, Bugis").
Proof.
  apply merchant_is_first_candidate with (pre := [js "RECEIPT #12"]) (post := []).
  - vm_compute. reflexivity.
  - simpl. lia.
  - repeat constructor.
  - vm_compute. reflexivity.
Defined.

(** X6: Only the first six lines count for the merchant: two texts whose first
    six lines are the same get the same merchant. *)
Theorem merchant_window t1 t2 r1 r2 :
  firstn 6 (lines_of t1) = firstn 6 (lines_of t2) ->
  parseReceipt t1 = Ok r1 -> parseReceipt t2 = Ok r2 ->
  merchant r1 = merchant r2.
Proof.
  intros E H1 H2.
  destruct (parseReceipt_ok t1) as (st1 & _ & _ & K1).
  destruct (parseReceipt_ok t2) as (st2 & _ & _ & K2).
  rewrite K1 in H1. rewrite K2 in H2. injection H1 as <-. injection H2 as <-.
  cbn [merchant]. unfold find_merchant. rewrite !window_firstn, E. reflexivity.
Qed.

Lemma merchant_window_witness :
  exists r1 r2,
    parseReceipt (window_text (js "Kopi House")) = Ok r1 /\
    parseReceipt (window_text (js "Teh Corner")) = Ok r2 /\
    merchant r1 = merchant r2.
Proof.
  eexists. eexists. split; [vm_compute; reflexivity|].
  split; [vm_compute; reflexivity|].
  apply merchant_window with (t1 := window_text (js "Kopi House"))
                             (t2 := window_text (js "Teh Corner"));
    vm_compute; reflexivity.
Defined.

(** ** Amount and currency *)

Lemma matches_input ic r s s' :
  matches ic r s s' -> rev (before s') ++ after s' = rev (before s) ++ after s.
Proof.
  intros H. destruct (matches_extends H) as (w & Ha & Hb).
  rewrite Hb, Ha, rev_app_distr, rev_involutive, <- app_assoc. reflexivity.
Qed.

Lemma ci_eq_refl ic w : ci_eq ic w w.
Proof.
  induction w; constructor; auto. unfold char_eq. apply N.eqb_refl.
Qed.

Lemma ends_in_token_occurs ic n r :
  ends_in_token n r ->
  forall s s',
    matches ic r s s' -> n < length (caps s) ->
    exists v, nth n (caps s') None = Some v /\ token_shape v /\
              contains false v (rev (before s) ++ after s).
Proof.
  induction r as [l|cs|lo hi cs|a IHa b IHb|a IHa b IHb|a IHa|i a IHa|];
    simpl; intros He s s' Hm Hn; try contradiction.
  - inversion Hm as [| | |a0 b0 s1 s2 s3 H1 H2| | | | | |]; subst.
    destruct He as [He|[He Hg]].
    + rewrite <- (matches_input H1). apply (IHb He _ _ H2).
      rewrite (matches_caps_length H1). exact Hn.
    + rewrite (matches_no_groups H2 Hg). apply (IHa He _ _ H1 Hn).
  - destruct He as [-> ->].
    inversion Hm as [| | | | | | | |i0 a0 s0 s0' H1|]; subst.
    destruct (matches_token H1) as [Hc Ht].
    destruct (matches_extends H1) as (w & Ha & Hb).
    exists (consumed s s0'). split; [|split; [exact Ht|]].
    + simpl. apply nth_set_nth_eq. rewrite Hc. exact Hn.
    + rewrite (@consumed_word s s0' w Hb), Ha.
      exists (rev (before s)), w, (after s0'). split; [reflexivity | apply ci_eq_refl].
Qed.

(** The last group of a match is a token that occurs in the line. *)
Lemma candidate_match_occurs line re m :
  In re candidates -> str_match line re = Some m ->
  exists val, last_group m = Some val /\ token_shape val /\ contains false val line.
Proof.
  intros Hin Hm. destruct (candidates_end_in_token Hin) as [Hpos He].
  destruct (@candidate_match line re m Hin Hm) as (val & Hv & _).
  unfold str_match, exec in Hm.
  destruct (search _ _ _ _ _) as [x|] eqn:Hs; [|discriminate].
  injection Hm as <-.
  destruct (search_sound _ _ _ _ _ Hs) as (a & b & s' & -> & Hr & ->).
  destruct (@ends_in_token_occurs _ _ _ He _ _ Hr) as (v & Hn & Ht & Hc).
  { simpl. rewrite repeat_length. lia. }
  exists v. split; [|split; [exact Ht|]].
  - rewrite Hv. revert Hv. unfold last_group, capture. cbn [caps].
    rewrite set_nth_length, (matches_caps_length Hr). cbn [caps].
    rewrite repeat_length.
    replace (S (ngroups (pattern re)) - 1) with (ngroups (pattern re)) by lia.
    rewrite nth_set_nth_neq by lia. rewrite Hn. auto.
  - cbn [before after] in Hc. rewrite app_nil_r, rev_involutive in Hc. exact Hc.
Qed.

Lemma first_matching_line ls :
  Forall no_match ls \/
  exists pre line post,
    ls = pre ++ line :: post /\ Forall no_match pre /\
    exists re, In re candidates /\ str_match line re <> None.
Proof.
  induction ls as [|l t IH]; [left; constructor|].
  destruct (first_pattern l) as [Hno|(k & re & m & Hk & _ & Hm)].
  - destruct IH as [IH|(pre & line & post & -> & Hpre & Hre)].
    + left. constructor; assumption.
    + right. exists (l :: pre), line, post. repeat split; auto.
  - right. exists [], l, t. repeat split; auto.
    exists re. split; [eapply nth_error_In; eassumption | congruence].
Qed.

Lemma parse_cases text :
  (Forall no_match (lines_of text) /\
   parseReceipt text
   = Ok (Receipt (find_merchant (lines_of text)) (js "SGD") zero (Debug [])))
  \/
  (exists pre line post val,
      lines_of text = pre ++ line :: post /\ Forall no_match pre /\
      token_shape val /\ contains false val line /\
      parseReceipt text
      = Ok (Receipt (find_merchant (lines_of text))
              (or_SGD (infer_currency line None))
              (parseFloat (replace_str (js ",") [] val)) (Debug line))).
Proof.
  destruct (first_matching_line (lines_of text))
    as [Hno|(pre & line & post & Hl & Hpre & re & Hin & Hre)].
  - left. split; [exact Hno|]. unfold parseReceipt.
    rewrite (scan_lines_none Hno). reflexivity.
  - right. destruct (first_pattern line) as [Hn|(k & re' & m & Hk & Hb & Hm)].
    { exfalso. apply Hre. apply Hn. exact Hin. }
    destruct (@candidate_match_occurs line re' m) as (val & Hv & Ht & Hc);
      [eapply nth_error_In; eassumption | assumption |].
    destruct (@scan_lines_first pre line post k re' m Hpre Hk Hb Hm)
      as (val' & Hv' & _ & Hs).
    rewrite Hv in Hv'. injection Hv' as <-.
    exists pre, line, post, val. repeat split; auto.
    unfold parseReceipt. rewrite Hl, Hs. reflexivity.
Qed.

(** X7: Either no pattern matches any line, and amount, currency and matched
    line are the defaults; or amount, currency and matched line come from
    the first line a pattern matches, the amount being read from a token
    (digits, period or comma, two digits) that occurs in that line. *)
Theorem amount_from_first_matching_line text :
  (Forall no_match (lines_of text) /\
   parseReceipt text
   = Ok (Receipt (find_merchant (lines_of text)) (js "SGD") zero (Debug [])))
  \/
  (exists pre line post val,
      lines_of text = pre ++ line :: post /\ Forall no_match pre /\
      token_shape val /\ contains false val line /\
      parseReceipt text
      = Ok (Receipt (find_merchant (lines_of text))
              (or_SGD (infer_currency line None))
              (parseFloat (replace_str (js ",") [] val)) (Debug line))).
Proof. exact (parse_cases text). Qed.

Lemma has_token_here p d0 sep d1 d2 post :
  isDigit d0 = true -> isSeparator sep = true ->
  isDigit d1 = true -> isDigit d2 = true ->
  has_token (p ++ d0 :: sep :: d1 :: d2 :: post) = true.
Proof.
  intros H0 Hs H1 H2. induction p as [|c p IH].
  - simpl. rewrite H0, Hs, H1, H2. reflexivity.
  - cbn [app has_token]. rewrite IH.
    destruct (p ++ d0 :: sep :: d1 :: d2 :: post) as [|x [|y [|z u]]] eqn:E;
      [| | |apply orb_true_r];
      apply (f_equal (@length N)) in E; rewrite length_app in E;
      simpl in E; lia.
Qed.

Lemma token_occurs_has_token val line :
  token_shape val -> contains false val line -> has_token line = true.
Proof.
  intros (ds & sep & d1 & d2 & -> & Hne & Hds & Hsep & H1 & H2)
         (pre & w & post & -> & Hw).
  assert (E : w = ds ++ [sep; d1; d2]).
  { clear -Hw. revert Hw. generalize (ds ++ [sep; d1; d2]). intros l Hw.
    induction Hw as [|a c l w Hac _ IH]; [reflexivity|].
    unfold char_eq in Hac. simpl in Hac. apply N.eqb_eq in Hac. congruence. }
  subst w.
  rewrite (app_removelast_last 0%N Hne), <- !app_assoc.
  rewrite (app_assoc pre). simpl.
  apply has_token_here; auto.
  - rewrite Forall_forall in Hds. apply Hds.
    rewrite (app_removelast_last 0%N Hne) at 2. apply in_or_app. right. left. reflexivity.
  - unfold isSeparator. destruct Hsep as [-> | ->]; reflexivity.
Qed.

(** X8: A line without a digit, a period or comma and two digits in a row is
    matched by no pattern; a text of such lines gets the defaults for amount,
    currency and matched line. *)
Theorem no_token_no_amount text :
  Forall (fun l => has_token l = false) (lines_of text) ->
  Forall no_match (lines_of text) /\
  exists r,
    parseReceipt text = Ok r /\ amount r = zero /\ currency r = js "SGD" /\
    matched (debug r) = [].
Proof.
  intros Hall.
  assert (Hno : Forall no_match (lines_of text)).
  { eapply Forall_impl; [|exact Hall]. intros l Hl re Hin.
    destruct (str_match l re) as [m|] eqn:Hm; [|reflexivity].
    destruct (@candidate_match_occurs l re m Hin Hm) as (val & _ & Ht & Hc).
    cbv beta in Hl. rewrite (token_occurs_has_token Ht Hc) in Hl. discriminate. }
  split; [exact Hno|]. eexists. split.
  - unfold parseReceipt. rewrite (scan_lines_none Hno). reflexivity.
  - auto.
Qed.

Lemma no_token_no_amount_witness :
  Forall no_match (lines_of (js "TOTAL: 12.5" ++ [LF] ++ js "AMOUNT 1234")) /\
  exists r,
    parseReceipt (js "TOTAL: 12.5" ++ [LF] ++ js "AMOUNT 1234") = Ok r /\
    amount r = zero /\ currency r = js "SGD" /\ matched (debug r) = [].
Proof.
  apply no_token_no_amount. vm_compute. repeat constructor.
Defined.

Lemma contains_length ic term line :
  contains ic term line -> length term <= length line.
Proof.
  intros (pre & w & post & -> & Hw).
  rewrite !length_app, <- (Forall2_length Hw). lia.
Qed.

Lemma currency_cases text :
  exists r,
    parseReceipt text = Ok r /\
    ((contains true (js "CNY") (matched (debug r)) /\ currency r = js "CNY") \/
     (~ contains true (js "CNY") (matched (debug r)) /\ currency r = js "SGD")).
Proof.
  destruct (parse_cases text)
    as [[_ H]|(pre & line & post & val & _ & _ & _ & _ & H)];
    eexists; (split; [exact H|]); cbn [matched debug currency].
  - right. split; [|reflexivity]. intros Hc. apply contains_length in Hc.
    simpl in Hc. lia.
  - unfold infer_currency. pose proof (test_cny line) as Hc.
    destruct (test re_cny line).
    + left. split; [apply Hc|]; reflexivity.
    + right. split; [intros K; apply Hc in K; discriminate|].
      destruct (test re_sgd line); [reflexivity|].
      destruct (test re_dollar line); reflexivity.
Qed.

(** X9: The currency is [CNY] exactly when the matched line contains [CNY], in
    any letter case; in every other case, also when no line matched, it is
    [SGD]: the markers [HKD], [USD] and [RM] of the patterns are never
    returned. *)
Theorem currency_is_SGD_or_CNY text :
  exists r,
    parseReceipt text = Ok r /\
    ((contains true (js "CNY") (matched (debug r)) /\ currency r = js "CNY") \/
     (~ contains true (js "CNY") (matched (debug r)) /\ currency r = js "SGD")).
Proof. exact (currency_cases text). Qed.

(** ** A line [TOTAL], separators, amount *)























(** ** The route [POST /ocr] *)



(** X12: When the recognition throws, the route answers [QUOTA] exactly when
    [e.status] is 429, or [e.status] is falsy and [e.response.status] is 429;
    every other thrown value, also one whose [status] is another truthy value
    while [response.status] is 429, gives [ERROR]. *)
Theorem ocr_route_error world c p e :
  world (c :: p) = Threw e ->
  ((status e = JNumber 429 \/
    (truthy (status e) = false /\ response_status e = JNumber 429)) /\
   ocr_route world (Some (c :: p)) = Reply 200 (Failure (js "QUOTA") msg_quota))
  \/
  (~ (status e = JNumber 429 \/
      (truthy (status e) = false /\ response_status e = JNumber 429)) /\
   ocr_route world (Some (c :: p)) = Reply 200 (Failure (js "ERROR") msg_error)).
Proof.
  intros Hw. unfold ocr_route, runYourOCR. rewrite Hw. unfold on_error, js_or.
  destruct e as [s rs]. cbn [status response_status].
  assert (H429 : forall v, is_429 v = true <-> v = JNumber 429).
  { intros [|z|b]; simpl; split; try discriminate; try congruence.
    - intros H. apply Z.eqb_eq in H. congruence.
    - intros H. injection H as ->. reflexivity. }
  destruct (truthy s) eqn:Ht.
  - destruct (is_429 s) eqn:Hs.
    + left. split; [left; apply H429; exact Hs | reflexivity].
    + right. split; [|reflexivity]. intros [E|[E _]]; [|congruence].
      apply H429 in E. congruence.
  - destruct (is_429 rs) eqn:Hs.
    + left. split; [right; split; [reflexivity | apply H429; exact Hs] | reflexivity].
    + right. split; [|reflexivity]. intros [E|[_ E]].
      * subst s. discriminate Ht.
      * apply H429 in E. congruence.
Qed.

Lemma ocr_route_error_witness :
  (~ (JNumber 500 = JNumber 429 \/
      (truthy (JNumber 500) = false /\ JNumber 429 = JNumber 429)) /\
   ocr_route (fun _ => Threw (Thrown (JNumber 500) (JNumber 429))) (Some (js "uploads/1"))
   = Reply 200 (Failure (js "ERROR") msg_error)).
Proof.
  destruct (@ocr_route_error (fun _ => Threw (Thrown (JNumber 500) (JNumber 429)))
              (ch "u") (js "ploads/1") (Thrown (JNumber 500) (JNumber 429)) eq_refl)
    as [[[H|[H _]] _]|H].
  - discriminate H.
  - discriminate H.
  - exact H.
Defined.

(** X13: A completion without choices, without a message or without content is
    the empty transcription: the route answers [ok: true] with merchant [-],
    amount 0 and currency [SGD]. *)
Theorem ocr_route_no_content world c p resp :
  world (c :: p) = Returned resp ->
  (choices resp = None \/ choices resp = Some [] \/
   exists first others,
     choices resp = Some (first :: others) /\
     (message first = None \/ message first = Some (ChatMessage None) \/
      message first = Some (ChatMessage (Some [])))) ->
  ocr_route world (Some (c :: p)) = Reply 200 (Success (js "-") zero (js "SGD")).
Proof.
  intros Hw Hc.
  assert (E : first_content resp = []).
  { unfold first_content.
    destruct Hc as [-> | [-> | (f & o & -> & [-> | [-> | ->]])]]; reflexivity. }
  unfold ocr_route, runYourOCR. rewrite Hw, E. reflexivity.
Qed.

Lemma ocr_route_no_content_witness :
  ocr_route (fun _ => Returned (Completion (Some [Choice None]))) (Some (js "uploads/1"))
  = Reply 200 (Success (js "-") zero (js "SGD")).
Proof.
  apply (@ocr_route_no_content (fun _ => Returned (Completion (Some [Choice None])))
           (ch "u") (js "ploads/1") (Completion (Some [Choice None])) eq_refl).
  right. right. exists (Choice None), []. split; [reflexivity | left; reflexivity].
Defined.

(** ** [getLANIP] *)

Lemma str_eqb_eq a b : str_eqb a b = true <-> a = b.
Proof.
  revert b. induction a as [|x a IH]; intros [|y b]; simpl; split;
    try discriminate; try reflexivity.
  - intros H. apply andb_prop in H. destruct H as [H1 H2].
    apply N.eqb_eq in H1. apply IH in H2. congruence.
  - intros H. injection H as -> ->. rewrite N.eqb_refl. apply IH. reflexivity.
Qed.

Lemma external_v4_iff i :
  external_v4 i = true <-> family i = js "IPv4" /\ internal i = false.
Proof.
  unfold external_v4. rewrite andb_true_iff, str_eqb_eq, negb_true_iff. tauto.
Qed.

Lemma first_external_cases l :
  (first_external l = None /\ Forall (fun i => external_v4 i = false) l) \/
  (exists l1 i l2,
      l = l1 ++ i :: l2 /\ Forall (fun j => external_v4 j = false) l1 /\
      external_v4 i = true /\ first_external l = Some (address i)).
Proof.
  induction l as [|i t IH]; simpl.
  - left. auto.
  - destruct (external_v4 i) eqn:Hi.
    + right. exists [], i, t. auto.
    + destruct IH as [[-> Hall]|(l1 & j & l2 & -> & H1 & Hj & ->)].
      * left. auto.
      * right. exists (i :: l1), j, l2. auto.
Qed.

Lemma lan_loop_cases ifs :
  (lan_loop ifs = None /\
   Forall (fun e => Forall (fun i => external_v4 i = false) (addresses_of (snd e))) ifs) \/
  (exists pre name l1 i l2 post,
      ifs = pre ++ (name, Some (l1 ++ i :: l2)) :: post /\
      Forall (fun e => Forall (fun j => external_v4 j = false) (addresses_of (snd e))) pre /\
      Forall (fun j => external_v4 j = false) l1 /\
      external_v4 i = true /\ lan_loop ifs = Some (address i)).
Proof.
  induction ifs as [|[name v] t IH]; simpl.
  - left. auto.
  - destruct (first_external_cases (addresses_of v))
      as [[Hn Hall]|(l1 & i & l2 & E & H1 & Hi & Hf)]; fold (addresses_of v).
    + rewrite Hn.
      destruct IH as [[-> Ht]|(pre & n & l1 & i & l2 & post & -> & Hp & H1 & Hi & ->)].
      * left. auto.
      * right. exists ((name, v) :: pre), n, l1, i, l2, post. repeat split; auto.
    + rewrite Hf. right. destruct v as [l|]; simpl in E.
      * subst l. exists [], name, l1, i, l2, t. repeat split; auto.
      * destruct l1; discriminate.
Qed.

(** X14: [getLANIP] returns the address of the first entry, in the order of the
    interface names and of their addresses, whose family is [IPv4] and that
    is not internal; it returns [localhost] when there is no such entry. *)
Theorem getLANIP_first_external ifs :
  (Forall (fun e => Forall (fun i => family i <> js "IPv4" \/ internal i = true)
                           (addresses_of (snd e))) ifs /\
   getLANIP ifs = js "localhost")
  \/
  (exists pre name l1 i l2 post,
      ifs = pre ++ (name, Some (l1 ++ i :: l2)) :: post /\
      Forall (fun e => Forall (fun j => family j <> js "IPv4" \/ internal j = true)
                              (addresses_of (snd e))) pre /\
      Forall (fun j => family j <> js "IPv4" \/ internal j = true) l1 /\
      family i = js "IPv4" /\ internal i = false /\
      getLANIP ifs = address i).
Proof.
  assert (Hneg : forall j, external_v4 j = false ->
                           family j <> js "IPv4" \/ internal j = true).
  { intros j Hj. destruct (internal j) eqn:Hi; [right; reflexivity|].
    left. intros Hf. assert (external_v4 j = true) by (apply external_v4_iff; auto).
    congruence. }
  assert (Hall : forall l, Forall (fun j => external_v4 j = false) l ->
                           Forall (fun j => family j <> js "IPv4" \/ internal j = true) l).
  { intros l. apply Forall_impl. exact Hneg. }
  unfold getLANIP.
  destruct (lan_loop_cases ifs)
    as [[-> H]|(pre & name & l1 & i & l2 & post & -> & Hp & H1 & Hi & ->)].
  - left. split; [|reflexivity]. eapply Forall_impl; [|exact H]. intros e. apply Hall.
  - right. apply external_v4_iff in Hi. destruct Hi as [Hf Hint].
    exists pre, name, l1, i, l2, post. repeat split; auto.
    eapply Forall_impl; [|exact Hp]. intros e. apply Hall.
Qed.

(** ** The fallback pattern *)

(** X15: The last pattern matches a line only if the line contains [S$], or a
    [$] that directly follows a word character: its leading [\b] rules out a
    [$] at the start of the line or after a space or punctuation. *)
Theorem dollar_pattern_needs_word line m :
  str_match line (nth 3 candidates re_dollar) = Some m ->
  contains false (js "S$") line \/
  exists pre c post, line = pre ++ c :: ch "$" :: post /\ isWord c = true.
Proof.
  unfold str_match, exec.
  change (nth 3 candidates re_dollar)
    with (RegExp (Seq WordB (Seq (words ["S$"; "$"]%string)
                               (Seq (Star space) (Seq (Group 1 token) WordB)))) false).
  cbn [pattern ignoreCase].
  destruct (search _ _ _ _ _) as [x|] eqn:Hs; [intros _|discriminate].
  destruct (search_sound _ _ _ _ _ Hs) as (a & b & s' & -> & Hm & _).
  inversion Hm as [| | |r1 r2 s1 s2 s3 Hb Hrest| | | | | |]; subst.
  inversion Hb as [| | | | | | | | |s0 Hx]; subst.
  inversion Hrest as [| | |r1 r2 s1 s2 s3 Hw _| | | | | |]; subst.
  destruct (words_elim _ Hw) as (term & Hin & Ht).
  inversion Ht as [l s0 s0' He| | | | | | | | |]; subst.
  destruct (eat_sound _ _ _ He) as (w & Hci & Hafter & _). cbn [after] in Hafter.
  destruct Hin as [<-|[<-|[]]].
  - left. exists a, w, (after s2). split; [rewrite Hafter; reflexivity | exact Hci].
  - right. inversion Hci as [|x0 c0 l0 w0 Hc Hnil]; subst. inversion Hnil; subst.
    unfold char_eq, canon in Hc. apply N.eqb_eq in Hc. subst c0.
    cbn [before after app hd_error] in Hx.
    change (word_at (Some 36%N)) with false in Hx. rewrite xorb_false_r in Hx.
    rewrite app_nil_r in Hx.
    destruct (rev a) as [|c ra] eqn:Ea; [discriminate Hx|].
    exists (rev ra), c, (after s2). split; [|exact Hx].
    rewrite <- (rev_involutive a), Ea. simpl. rewrite <- app_assoc. reflexivity.
Qed.

Lemma dollar_pattern_needs_word_witness :
  contains false (js "S$") (js "US$5.00") \/
  exists pre c post, js "US$5.00" = pre ++ c :: ch "$" :: post /\ isWord c = true.
Proof.
  apply (@dollar_pattern_needs_word (js "US$5.00")
           [Some (js "$5.00"); Some (js "5.00")]).
  vm_compute. reflexivity.
Defined.
